(** * chrome-ssh-agent, package optionsui: key reconciliation and action flows

    A shallow embedding of [mergeKeys] and of the dialog driven flows of
    [optionsui.UI] (add, load, unload, remove), with the properties the
    specification states about them. *)

From Stdlib Require Import Sorting.Sorted Sorting.Permutation.
From Stdlib Require OrderedTypeEx DecimalString.
From stdpp Require Import gmap strings list functions sorting.

Set Default Proof Using "Type".
Set Warnings "-clear-no-such-hyp".

(** ** Package keys: the types [mergeKeys] consumes *)

Module keys.

(** [type ID string]. *)
Definition ID : Type := string.

(** Modelled from the spec: the constant [keys.InvalidID] is declared in
    package keys, outside the files embedded here.  It is the
    sentinel "no corresponding configured entry"; the test table of
    optionsui expects [ID: keys.InvalidID] for entries whose [ID] field
    [mergeKeys] leaves at the zero value of the string type. *)
Definition InvalidID : ID := "".

(** [keys.ConfiguredKey]: the fields [mergeKeys] reads. *)
Record ConfiguredKey : Type := {
  ck_ID : ID;
  ck_Name : string;
  ck_Encrypted : bool
}.

(** [keys.LoadedKey]: the field [Type], the raw bytes returned by the
    method [Blob()], and the identifier returned by the method [ID()]
    ([InvalidID] when none can be derived). *)
Record LoadedKey : Type := {
  lk_Type : string;
  lk_Blob : list Byte.byte;
  lk_ID : ID
}.

End keys.

Import keys.

(** ** encoding/base64: [StdEncoding.EncodeToString] *)

Module base64.

Definition encodeStd : string :=
  "ABCDEFGHIJKLMNOPQRSTUVWXYZabcdefghijklmnopqrstuvwxyz0123456789+/".

Definition StdPadding : Ascii.ascii := Ascii.ascii_of_nat 61.

(** [enc.encode[i]] for a six bit index. *)
Definition encode (i : N) : Ascii.ascii :=
  match String.get (N.to_nat i) encodeStd with
  | Some c => c
  | None => StdPadding
  end.

Definition sextet (val : N) (shift : N) : Ascii.ascii :=
  encode (N.land (N.shiftr val shift) 63).

(** Three source bytes give four characters; a remainder of one or two
    bytes is padded. *)
Fixpoint EncodeToString (src : list Byte.byte) : string :=
  match src with
  | [] => ""
  | [a] =>
      let val := N.shiftl (Byte.to_N a) 16 in
      String (sextet val 18) (String (sextet val 12)
        (String StdPadding (String StdPadding "")))
  | [a; b] =>
      let val := N.lor (N.shiftl (Byte.to_N a) 16) (N.shiftl (Byte.to_N b) 8) in
      String (sextet val 18) (String (sextet val 12)
        (String (sextet val 6) (String StdPadding "")))
  | a :: b :: c :: rest =>
      let val := N.lor (N.lor (N.shiftl (Byte.to_N a) 16)
                              (N.shiftl (Byte.to_N b) 8)) (Byte.to_N c) in
      String (sextet val 18) (String (sextet val 12)
        (String (sextet val 6) (String (sextet val 0) (EncodeToString rest))))
  end.

End base64.

(** ** sort.Slice *)

Module sort.

Section Slice.
Context {A : Type} (less : A → A → bool).

(** The inner loop of Go's [insertionSort]: the new element moves left
    while it is [less] than its left neighbour.  [sorted_rev] is the
    prefix already sorted, last element first. *)
Fixpoint shiftLeft (x : A) (sorted_rev : list A) : list A :=
  match sorted_rev with
  | [] => [x]
  | y :: rest => if less x y then y :: shiftLeft x rest else x :: y :: rest
  end.

(** [sort.Slice] on a short slice (at most twelve elements since Go 1.19)
    is this insertion sort; on longer slices Go runs pattern-defeating
    quicksort, whose result is likewise a permutation of the slice ordered
    by [less] (the order of elements that compare equal is then
    unspecified). *)
Definition Slice (data : list A) : list A :=
  rev (fold_left (fun acc x => shiftLeft x acc) data []).
End Slice.

End sort.

(** ** Package optionsui: displayed keys and their reconciliation *)

(** [displayedKey] represents a key displayed in the UI. *)
Record displayedKey : Type := {
  dk_ID : ID;
  dk_Loaded : bool;
  dk_Encrypted : bool;
  dk_Name : string;
  dk_Type : string;
  dk_Blob : string
}.

(** The comparison function handed to [sort.Slice]. *)
Definition less (a b : displayedKey) : bool :=
  if String.ltb (dk_Name a) (dk_Name b) then true
  else if String.ltb (dk_Name b) (dk_Name a) then false
  else if String.ltb (dk_Blob a) (dk_Blob b) then true
  else if String.ltb (dk_Blob b) (dk_Blob a) then false
  else String.ltb (dk_ID a) (dk_ID b).

(** Body of the first loop: [configuredMap[keys.ID(k.ID)] = k]. *)
Definition put (configuredMap : gmap ID ConfiguredKey) (k : ConfiguredKey)
  : gmap ID ConfiguredKey :=
  <[ck_ID k := k]> configuredMap.

(** Build map of configured keys for faster lookup. *)
Definition buildConfiguredMap (configured : list ConfiguredKey)
  : gmap ID ConfiguredKey :=
  fold_left put configured ∅.

(** Reading a [map[keys.ID]bool]: a missing key reads as [false]. *)
Definition isLoaded (loadedIds : gmap ID bool) (id : ID) : bool :=
  default false (loadedIds !! id).

(** Body of the loop over the loaded keys. *)
Definition addLoaded (configuredMap : gmap ID ConfiguredKey)
    (st : list displayedKey * gmap ID bool) (l : LoadedKey)
  : list displayedKey * gmap ID bool :=
  let '(result, loadedIds) := st in
  let dk := {| dk_ID := ""; dk_Loaded := true; dk_Encrypted := false;
               dk_Name := ""; dk_Type := lk_Type l;
               dk_Blob := base64.EncodeToString (lk_Blob l) |} in
  let id := lk_ID l in
  if decide (id ≠ InvalidID) then
    match configuredMap !! id with
    | Some ak =>
        (result ++ [ {| dk_ID := id; dk_Loaded := dk_Loaded dk;
                        dk_Encrypted := dk_Encrypted dk; dk_Name := ck_Name ak;
                        dk_Type := dk_Type dk; dk_Blob := dk_Blob dk |} ],
         <[id := true]> loadedIds)
    | None => (result ++ [dk], loadedIds)
    end
  else (result ++ [dk], loadedIds).

(** Body of the loop over the configured keys. *)
Definition addConfigured (loadedIds : gmap ID bool)
    (result : list displayedKey) (a : ConfiguredKey) : list displayedKey :=
  if isLoaded loadedIds (ck_ID a) then result
  else result ++ [ {| dk_ID := ck_ID a; dk_Loaded := false;
                      dk_Encrypted := ck_Encrypted a; dk_Name := ck_Name a;
                      dk_Type := ""; dk_Blob := "" |} ].

(** The list [mergeKeys] holds just before it sorts. *)
Definition collectKeys (configured : list ConfiguredKey)
    (loaded : list LoadedKey) : list displayedKey :=
  let configuredMap := buildConfiguredMap configured in
  let '(result, loadedIds) :=
    fold_left (addLoaded configuredMap) loaded ([], ∅) in
  fold_left (addConfigured loadedIds) configured result.

(** [mergeKeys] merges configured and loaded keys to create a consolidated
    list of keys that should be displayed in the UI. *)
Definition mergeKeys (configured : list ConfiguredKey)
    (loaded : list LoadedKey) : list displayedKey :=
  sort.Slice less (collectKeys configured loaded).

(** ** Package dom: the document the options page drives *)

Module dom.

(** The elements [optionsui.New] looks up, named after the fields of the
    [UI] struct that hold them. *)
Inductive Element : Type :=
| passphraseDialog | passphraseInput | passphraseOk | passphraseCancel
| addButton | addDialog | addName | addKey | addOk | addCancel
| removeDialog | removeName | removeYes | removeNo
| errorText | keysData.

#[export] Instance Element_eq_dec : EqDecision Element.
Proof. solve_decision. Defined.

(** One row of the key table, as [updateDisplayedKeys] builds it: the
    name cell, the ids of the buttons in the controls cell, the type cell
    and the blob cell. *)
Record KeyRow : Type := {
  keyName : string;
  keyControls : list string;
  keyType : string;
  keyBlob : string
}.

(** Nodes appended below an element: a text node ([NewText]) or a table
    row. *)
Inductive Node : Type :=
| NewText (text : string)
| NewRow (row : KeyRow).

End dom.

Import dom.

(** ** The closures of package optionsui, as data *)

(** The closure [UI.add] passes to [promptAdd]. *)
Inductive AddCallback : Type := addCallback.

(** The closure [UI.load] passes to its prompt; it captures [id]. *)
Inductive PassphraseCallback : Type := loadCallback (id : ID).

(** The closure [UI.remove] passes to [promptRemove]; it captures [id]. *)
Inductive RemoveCallback : Type := removeCallback (id : ID).

(** The functions registered with [OnClick]. *)
Inductive Handler : Type :=
| addClicked
| addOkClicked (callback : AddCallback)
| addCancelClicked (callback : AddCallback)
| passphraseOkClicked (callback : PassphraseCallback)
| passphraseCancelClicked (callback : PassphraseCallback)
| removeYesClicked (callback : RemoveCallback)
| removeNoClicked (callback : RemoveCallback).

(** A call made to the [keys.Manager] whose callback has not run yet.  Each
    call site passes one fixed closure, so the constructor names the request
    and the closure at once; [mgrLoaded] carries the [configured] list its
    closure captured. *)
Inductive Pending : Type :=
| mgrAdd (name privateKey : string)
| mgrLoad (id : ID) (passphrase : string)
| mgrUnload (key : LoadedKey)
| mgrRemove (id : ID)
| mgrConfigured
| mgrLoaded (configured : list ConfiguredKey).

(** What the manager hands to a callback; [err = None] is Go's [nil]. *)
Inductive Reply : Type :=
| replyError (err : option string)
| replyConfigured (configured : list ConfiguredKey) (err : option string)
| replyLoaded (loaded : list LoadedKey) (err : option string).

(** The calls that change the document or leave the package, in the order
    they happen. *)
Inductive Op : Type :=
| SetValueOp (o : Element) (v : string)
| RemoveChildrenOp (p : Element)
| AppendChildOp (p : Element) (child : Node)
| OnClickOp (o : Element) (h : Handler)
| RemoveEventListenersOp (o : Element)
| ShowModalOp (d : Element)
| CloseOp (d : Element)
| AddCallbackOp (name privateKey : string) (ok : bool)
| PassphraseCallbackOp (passphrase : string) (ok : bool)
| RemoveCallbackOp (yes : bool)
| ManagerOp (call : Pending).

(** The [UI] struct together with the document it drives and the calls the
    manager still has to answer. *)
Record State : Type := {
  value : Element → string;
  children : Element → list Node;
  open : Element → bool;
  listeners : Element → list Handler;
  keys : list displayedKey;
  pending : list Pending;
  history : list Op
}.

(** ** A state monad for the methods of [UI] *)

Definition M (A : Type) : Type := State → A * State.

#[export] Instance M_ret : MRet M := λ A a u, (a, u).
#[export] Instance M_bind : MBind M :=
  λ A B f m u, let '(a, u') := m u in f a u'.

Definition exec {A : Type} (m : M A) (u : State) : State := (m u).2.

Definition record (op : Op) (u : State) : State :=
  {| value := value u; children := children u; open := open u;
     listeners := listeners u; keys := keys u; pending := pending u;
     history := history u ++ [op] |}.

Fixpoint forEach {A : Type} (l : list A) (body : A → M ()) : M () :=
  match l with
  | [] => mret ()
  | x :: rest => body x;; forEach rest body
  end.

Module DOM.

Definition Value (o : Element) : M string := λ u, (value u o, u).

Definition SetValue (o : Element) (v : string) : M () := λ u,
  ((), record (SetValueOp o v)
    {| value := <[o := v]> (value u); children := children u;
       open := open u; listeners := listeners u; keys := keys u;
       pending := pending u; history := history u |}).

Definition RemoveChildren (p : Element) : M () := λ u,
  ((), record (RemoveChildrenOp p)
    {| value := value u; children := <[p := []]> (children u);
       open := open u; listeners := listeners u; keys := keys u;
       pending := pending u; history := history u |}).

(** [AppendChild(parent, child, nil)] and [AppendChild] with a [populate]
    function that has already filled in [child]. *)
Definition AppendChild (parent : Element) (child : Node) : M () := λ u,
  ((), record (AppendChildOp parent child)
    {| value := value u;
       children := <[parent := children u parent ++ [child]]> (children u);
       open := open u; listeners := listeners u; keys := keys u;
       pending := pending u; history := history u |}).

Definition OnClick (o : Element) (callback : Handler) : M () := λ u,
  ((), record (OnClickOp o callback)
    {| value := value u; children := children u; open := open u;
       listeners := <[o := listeners u o ++ [callback]]> (listeners u);
       keys := keys u; pending := pending u; history := history u |}).

(** Modelled from the spec: [DOM.RemoveEventListeners] is missing from the
    embedded files.  It deregisters the click handlers of the element and
    returns the element to use from then on, which the caller stores back
    in the same field. *)
Definition RemoveEventListeners (o : Element) : M () := λ u,
  ((), record (RemoveEventListenersOp o)
    {| value := value u; children := children u; open := open u;
       listeners := <[o := []]> (listeners u);
       keys := keys u; pending := pending u; history := history u |}).

(** Modelled from the spec: [DOM.ShowModal] is missing from the embedded files;
    it shows the dialog as a modal dialog. *)
Definition ShowModal (d : Element) : M () := λ u,
  ((), record (ShowModalOp d)
    {| value := value u; children := children u;
       open := <[d := true]> (open u); listeners := listeners u;
       keys := keys u; pending := pending u; history := history u |}).

(** Modelled from the spec: [DOM.Close] is missing from the embedded files; it
    closes the dialog. *)
Definition Close (d : Element) : M () := λ u,
  ((), record (CloseOp d)
    {| value := value u; children := children u;
       open := <[d := false]> (open u); listeners := listeners u;
       keys := keys u; pending := pending u; history := history u |}).

End DOM.

(** Calling a method of the manager: the request is out and its callback
    will run when the manager answers. *)
Definition callManager (call : Pending) : M () := λ u,
  ((), record (ManagerOp call)
    {| value := value u; children := children u; open := open u;
       listeners := listeners u; keys := keys u;
       pending := pending u ++ [call]; history := history u |}).

Definition setKeys (ks : list displayedKey) : M () := λ u,
  ((), {| value := value u; children := children u; open := open u;
          listeners := listeners u; keys := ks; pending := pending u;
          history := history u |}).

Definition getKeys : M (list displayedKey) := λ u, (keys u, u).

Definition getListeners (o : Element) : M (list Handler) :=
  λ u, (listeners u o, u).

Definition takePending (n : nat) : M (option Pending) := λ u,
  match pending u !! n with
  | Some call =>
      (Some call,
       {| value := value u; children := children u; open := open u;
          listeners := listeners u; keys := keys u;
          pending := delete n (pending u); history := history u |})
  | None => (None, u)
  end.

(** [buttonKind] is the type of button displayed for a key. *)
Inductive buttonKind : Type := LoadButton | UnloadButton | RemoveButton.

(** [buttonID] returns the value of the 'id' attribute to be assigned to the
    HTML button. *)
Definition buttonID (kind : buttonKind) (id : ID) : string :=
  let s := match kind with
           | LoadButton => "load"
           | UnloadButton => "unload"
           | RemoveButton => "remove"
           end in
  s +:+ "-" +:+ id.

(** ** The methods of [UI] *)

Module UI.

(** [fmt.Errorf(prefix + ": %v", err)], as the text [Error()] returns. *)
Definition Errorf (prefix err : string) : string := prefix +:+ ": " +:+ err.

(** [setError] updates the UI to display the supplied error. If the
    supplied error is nil, then any displayed error is cleared. *)
Definition setError (err : option string) : M () :=
  DOM.RemoveChildren errorText;;
  match err with
  | Some e => DOM.AppendChild errorText (NewText e)
  | None => mret ()
  end.

(** The row [updateDisplayedKeys] appends for one key. *)
Definition keyRow (k : displayedKey) : KeyRow :=
  {| keyName := dk_Name k;
     keyControls :=
       if decide (dk_ID k = InvalidID) then []
       else [ if dk_Loaded k then buttonID UnloadButton (dk_ID k)
              else buttonID LoadButton (dk_ID k);
              buttonID RemoveButton (dk_ID k) ];
     keyType := dk_Type k;
     keyBlob := dk_Blob k |}.

(** [updateDisplayedKeys] refreshes the UI to reflect the keys that should
    be displayed. *)
Definition updateDisplayedKeys : M () :=
  DOM.RemoveChildren keysData;;
  ks ← getKeys;
  forEach ks (λ k, DOM.AppendChild keysData (NewRow (keyRow k))).

(** [updateKeys] queries the manager for configured and loaded keys, then
    triggers UI updates to reflect the current state. *)
Definition updateKeys : M () := callManager mgrConfigured.

(** The callback [updateKeys] passes to [mgr.Configured]. *)
Definition configuredDone (configured : list ConfiguredKey)
    (err : option string) : M () :=
  match err with
  | Some e => setError (Some (Errorf "failed to get configured keys" e))
  | None => callManager (mgrLoaded configured)
  end.

(** The callback passed to [mgr.Loaded]. *)
Definition loadedDone (configured : list ConfiguredKey)
    (loaded : list LoadedKey) (err : option string) : M () :=
  match err with
  | Some e => setError (Some (Errorf "failed to get loaded keys" e))
  | None =>
      setError None;;
      setKeys (mergeKeys configured loaded);;
      updateDisplayedKeys
  end.

(** The callback [add] passes to [mgr.Add]. *)
Definition addDone (err : option string) : M () :=
  match err with
  | Some e => setError (Some (Errorf "failed to add key" e))
  | None => setError None;; updateKeys
  end.

(** The callback [load] passes to [mgr.Load]. *)
Definition loadDone (err : option string) : M () :=
  match err with
  | Some e => setError (Some (Errorf "failed to load key" e))
  | None => setError None;; updateKeys
  end.

(** The callback [unload] passes to [mgr.Unload]. *)
Definition unloadDone (err : option string) : M () :=
  match err with
  | Some e => setError (Some (Errorf "failed to unload key" e))
  | None => setError None;; updateKeys
  end.

(** The callback [remove] passes to [mgr.Remove]. *)
Definition removeDone (err : option string) : M () :=
  match err with
  | Some e => setError (Some (Errorf "failed to remove key" e))
  | None => setError None;; updateKeys
  end.

(** Invoking the closure of [add]: [callback(name, privateKey, ok)]. *)
Definition callAdd (callback : AddCallback)
    (name privateKey : string) (ok : bool) : M () :=
  (λ u, ((), record (AddCallbackOp name privateKey ok) u));;
  match callback with
  | addCallback =>
      if negb ok then mret ()
      else callManager (mgrAdd name privateKey)
  end.

(** Invoking the closure of [load]: [callback(passphrase, ok)]. *)
Definition callPassphrase (callback : PassphraseCallback)
    (passphrase : string) (ok : bool) : M () :=
  (λ u, ((), record (PassphraseCallbackOp passphrase ok) u));;
  match callback with
  | loadCallback id =>
      if negb ok then mret ()
      else callManager (mgrLoad id passphrase)
  end.

(** Invoking the closure of [remove]: [callback(yes)]. *)
Definition callRemove (callback : RemoveCallback) (yes : bool) : M () :=
  (λ u, ((), record (RemoveCallbackOp yes) u));;
  match callback with
  | removeCallback id =>
      if negb yes then mret ()
      else callManager (mgrRemove id)
  end.

(** [promptAdd] displays a dialog prompting the user for a name and
    private key. *)
Definition promptAdd (callback : AddCallback) : M () :=
  DOM.OnClick addOk (addOkClicked callback);;
  DOM.OnClick addCancel (addCancelClicked callback);;
  DOM.ShowModal addDialog.

(** [add] configures a new key. *)
Definition add : M () := promptAdd addCallback.

(** [promptPassphrase] displays a dialog prompting the user for a
    passphrase. *)
Definition promptPassphrase (callback : PassphraseCallback) : M () :=
  DOM.OnClick passphraseOk (passphraseOkClicked callback);;
  DOM.OnClick passphraseCancel (passphraseCancelClicked callback);;
  DOM.ShowModal passphraseDialog.

(** [load] loads the key with the specified ID.  A dialog prompts the user
    for a passphrase if the private key is encrypted. *)
Definition load (id : ID) (encrypted : bool) : M () :=
  let prompt :=
    if negb encrypted
    then λ callback, callPassphrase callback "" true
    else promptPassphrase in
  prompt (loadCallback id).

(** [unload] unloads the specified key. *)
Definition unload (key : LoadedKey) : M () := callManager (mgrUnload key).

(** [promptRemove] displays a dialog prompting the user to confirm that a
    key should be removed. *)
Definition promptRemove (name : string) (callback : RemoveCallback) : M () :=
  DOM.RemoveChildren removeName;;
  DOM.AppendChild removeName (NewText name);;
  DOM.OnClick removeYes (removeYesClicked callback);;
  DOM.OnClick removeNo (removeNoClicked callback);;
  DOM.ShowModal removeDialog.

(** [remove] removes the key with the specified ID. *)
Definition remove (id : ID) (name : string) : M () :=
  promptRemove name (removeCallback id).

(** The body of each function registered with [OnClick]. *)
Definition fire (h : Handler) : M () :=
  match h with
  | addClicked => add
  | addOkClicked callback =>
      n ← DOM.Value addName;
      k ← DOM.Value addKey;
      DOM.SetValue addName "";;
      DOM.SetValue addKey "";;
      DOM.RemoveEventListeners addOk;;
      DOM.RemoveEventListeners addCancel;;
      DOM.Close addDialog;;
      callAdd callback n k true
  | addCancelClicked callback =>
      DOM.SetValue addName "";;
      DOM.SetValue addKey "";;
      DOM.RemoveEventListeners addOk;;
      DOM.RemoveEventListeners addCancel;;
      DOM.Close addDialog;;
      callAdd callback "" "" false
  | passphraseOkClicked callback =>
      p ← DOM.Value passphraseInput;
      DOM.SetValue passphraseInput "";;
      DOM.RemoveEventListeners passphraseOk;;
      DOM.RemoveEventListeners passphraseCancel;;
      DOM.Close passphraseDialog;;
      callPassphrase callback p true
  | passphraseCancelClicked callback =>
      DOM.SetValue passphraseInput "";;
      DOM.RemoveEventListeners passphraseOk;;
      DOM.RemoveEventListeners passphraseCancel;;
      DOM.Close passphraseDialog;;
      callPassphrase callback "" false
  | removeYesClicked callback =>
      DOM.RemoveChildren removeName;;
      DOM.RemoveEventListeners removeYes;;
      DOM.RemoveEventListeners removeNo;;
      DOM.Close removeDialog;;
      callRemove callback true
  | removeNoClicked callback =>
      DOM.RemoveChildren removeName;;
      DOM.RemoveEventListeners removeYes;;
      DOM.RemoveEventListeners removeNo;;
      DOM.Close removeDialog;;
      callRemove callback false
  end.

(** [DOM.DoClick]: every handler registered on the element when the click
    is dispatched runs, in registration order. *)
Definition DoClick (o : Element) : M () :=
  hs ← getListeners o;
  forEach hs fire.

(** The manager answers its [n]-th outstanding call: the callback of that
    call runs, once.  An answer of the wrong shape for the call cannot be
    delivered. *)
Definition managerReplies (n : nat) (r : Reply) : M () := λ u,
  match pending u !! n, r with
  | Some (mgrAdd _ _), replyError err => (takePending n;; addDone err) u
  | Some (mgrLoad _ _), replyError err => (takePending n;; loadDone err) u
  | Some (mgrUnload _), replyError err => (takePending n;; unloadDone err) u
  | Some (mgrRemove _), replyError err => (takePending n;; removeDone err) u
  | Some mgrConfigured, replyConfigured configured err =>
      (takePending n;; configuredDone configured err) u
  | Some (mgrLoaded configured), replyLoaded loaded err =>
      (takePending n;; loadedDone configured loaded err) u
  | _, _ => ((), u)
  end.

(** [New] returns a new UI instance: nothing is displayed yet, no dialog is
    open, and a click on the add button runs [add].  [updateKeys] runs
    once the document has loaded. *)
Definition New : State :=
  {| value := λ _, "";
     children := λ _, [];
     open := λ _, false;
     listeners := <[addButton := [addClicked]]> (λ _, []);
     keys := [];
     pending := [];
     history := [] |}.

End UI.

(** The four user actions, and what starts each of them. *)
Inductive Flow : Type :=
| Add
| Load (id : ID) (encrypted : bool)
| Unload (key : LoadedKey)
| Remove (id : ID) (name : string).

Definition start (f : Flow) : M () :=
  match f with
  | Add => UI.add
  | Load id encrypted => UI.load id encrypted
  | Unload key => UI.unload key
  | Remove id name => UI.remove id name
  end.

(** The callback that runs when the manager has carried out the action. *)
Definition finish (f : Flow) (err : option string) : M () :=
  match f with
  | Add => UI.addDone err
  | Load _ _ => UI.loadDone err
  | Unload _ => UI.unloadDone err
  | Remove _ _ => UI.removeDone err
  end.

(** The text each flow puts in front of the manager's error. *)
Definition failure (f : Flow) : string :=
  match f with
  | Add => "failed to add key"
  | Load _ _ => "failed to load key"
  | Unload _ => "failed to unload key"
  | Remove _ _ => "failed to remove key"
  end.

(** The error a reply carries. *)
Definition errorOf (r : Reply) : option string :=
  match r with
  | replyError err | replyConfigured _ err | replyLoaded _ err => err
  end.

(** The user types into an input element. *)
Definition typeInto (o : Element) (v : string) (u : State) : State :=
  {| value := <[o := v]> (value u); children := children u; open := open u;
     listeners := listeners u; keys := keys u; pending := pending u;
     history := history u |}.

(** ** The order of the display list *)

(** A three-way comparison that is a strict total order. *)
Record CompareOrder {A : Type} (cmp : A → A → comparison) : Prop := {
  cmp_eq : ∀ x y, cmp x y = Eq ↔ x = y;
  cmp_opp : ∀ x y, cmp y x = CompOpp (cmp x y);
  cmp_lt_trans : ∀ x y z, cmp x y = Lt → cmp y z = Lt → cmp x z = Lt
}.

(** Comparison of pairs, the first component deciding unless it ties. *)
Definition lexCompare {A B : Type} (ca : A → A → comparison)
    (cb : B → B → comparison) (p q : A * B) : comparison :=
  match ca p.1 q.1 with
  | Eq => cb p.2 q.2
  | c => c
  end.

(** The fields [less] looks at, in the order it looks at them. *)
Definition sortKey (d : displayedKey) : string * (string * string) :=
  (dk_Name d, (dk_Blob d, dk_ID d)).

Definition keyCompare (k1 k2 : string * (string * string)) : comparison :=
  lexCompare String.compare (lexCompare String.compare String.compare) k1 k2.

(** Go's [<] on strings: the lexicographic order of their bytes. *)
Definition strLt (s t : string) : Prop := String.compare s t = Lt.

(** "Name is smaller, or names are equal and blob is smaller, or names and
    blobs are equal and id is smaller." *)
Definition precedes (a b : displayedKey) : Prop :=
  strLt (dk_Name a) (dk_Name b) ∨
  (dk_Name a = dk_Name b ∧ strLt (dk_Blob a) (dk_Blob b)) ∨
  (dk_Name a = dk_Name b ∧ dk_Blob a = dk_Blob b ∧ strLt (dk_ID a) (dk_ID b)).

(** Two entries the sort cannot tell apart. *)
Definition sameKey (a b : displayedKey) : Prop := sortKey a = sortKey b.

Definition ascending (a b : displayedKey) : Prop := precedes a b ∨ sameKey a b.

(** No two different entries of the list share their name, blob and id. *)
Definition keyDetermined (ds : list displayedKey) : Prop :=
  ∀ a b, a ∈ ds → b ∈ ds → sameKey a b → a = b.

(** ** The contents of the display list, in the words of the specification *)

(** The backend derives the identifier [id] for the loaded key [l]. *)
Definition derives (l : LoadedKey) (id : ID) : Prop :=
  lk_ID l ≠ InvalidID ∧ lk_ID l = id.

(** The configured key [c] has a matching loaded key. *)
Definition matched (loaded : list LoadedKey) (c : ConfiguredKey) : Prop :=
  Exists (λ l, derives l (ck_ID c)) loaded.

#[export] Instance derives_dec l id : Decision (derives l id).
Proof. unfold derives. apply _. Defined.

#[export] Instance matched_dec loaded c : Decision (matched loaded c).
Proof. unfold matched. apply _. Defined.

(** The entry of a loaded key that has no configured counterpart. *)
Definition unconfigured (l : LoadedKey) : displayedKey :=
  {| dk_ID := InvalidID; dk_Loaded := true; dk_Encrypted := false;
     dk_Name := ""; dk_Type := lk_Type l;
     dk_Blob := base64.EncodeToString (lk_Blob l) |}.

(** The entry of a loaded key: identifier and name come from the configured
    key it matches, if there is one. *)
Definition shownLoaded (configuredMap : gmap ID ConfiguredKey)
    (l : LoadedKey) : displayedKey :=
  match configuredMap !! lk_ID l with
  | Some ak =>
      if decide (lk_ID l = InvalidID) then unconfigured l
      else {| dk_ID := lk_ID l; dk_Loaded := true; dk_Encrypted := false;
              dk_Name := ck_Name ak; dk_Type := lk_Type l;
              dk_Blob := base64.EncodeToString (lk_Blob l) |}
  | None => unconfigured l
  end.

(** The entry of a configured key that is not loaded. *)
Definition shownConfigured (a : ConfiguredKey) : displayedKey :=
  {| dk_ID := ck_ID a; dk_Loaded := false; dk_Encrypted := ck_Encrypted a;
     dk_Name := ck_Name a; dk_Type := ""; dk_Blob := "" |}.

(** The entry [d] shows the configured key [c] as loaded. *)
Definition carries (c : ConfiguredKey) (d : displayedKey) : Prop :=
  dk_Loaded d = true ∧ dk_ID d = ck_ID c ∧ dk_Name d = ck_Name c.

#[export] Instance carries_dec c d : Decision (carries c d).
Proof. unfold carries. apply _. Defined.

(** Raw bytes of a string, to write blobs down. *)
Definition bytes (s : string) : list Byte.byte :=
  Ascii.byte_of_ascii <$> String.list_ascii_of_string s.

(** ** Sample keys *)

Definition alice : ConfiguredKey :=
  {| ck_ID := "1"; ck_Name := "alice"; ck_Encrypted := true |}.

Definition bob : ConfiguredKey :=
  {| ck_ID := "2"; ck_Name := "bob"; ck_Encrypted := false |}.

(** [alice], loaded by the extension. *)
Definition aliceLoaded : LoadedKey :=
  {| lk_Type := "ssh-rsa"; lk_Blob := bytes "alice-key"; lk_ID := "1" |}.

(** A second key in the agent that also carries the identifier of [alice]. *)
Definition aliceAgain : LoadedKey :=
  {| lk_Type := "ssh-ed25519"; lk_Blob := bytes "other-key"; lk_ID := "1" |}.

(** A key loaded into the agent by other means. *)
Definition stranger : LoadedKey :=
  {| lk_Type := "ssh-rsa"; lk_Blob := bytes "foreign"; lk_ID := InvalidID |}.

(** The same blob as [stranger], reported with another type. *)
Definition strangerTwin : LoadedKey :=
  {| lk_Type := "ssh-dss"; lk_Blob := bytes "foreign"; lk_ID := InvalidID |}.

(** ** Sample states *)

(** The page after an add that the manager refused. *)
Definition addRefused : State :=
  exec (finish Add (Some "invalid name: name must not be empty")) UI.New.

(** The passphrase dialog is open for the key "1" and the user has typed a
    passphrase. *)
Definition passphraseTyped : State :=
  typeInto passphraseInput "secret" (exec (UI.load "1" true) UI.New).

(** ** encoding/base64: [StdEncoding.DecodeString] *)

Module base64_decode.

(** [enc.decodeMap[in]]: the position of [in] in the alphabet; [None]
    stands for the byte 0xff that marks a character outside of it. *)
Fixpoint position (c : Ascii.ascii) (alphabet : string) (i : N) : option N :=
  match alphabet with
  | EmptyString => None
  | String c' rest =>
      if Ascii.eqb c c' then Some i else position c rest (i + 1)
  end.

Definition decodeMap (c : Ascii.ascii) : option N :=
  position c base64.encodeStd 0.

(** [in == '\n' || in == '\r'] *)
Definition isNewline (c : Ascii.ascii) : bool :=
  Ascii.eqb c (Ascii.ascii_of_nat 10) || Ascii.eqb c (Ascii.ascii_of_nat 13).

(** [for si < len(src) && (src[si] == '\n' || src[si] == '\r') { si++ }],
    on the part of [src] from [si] on. *)
Fixpoint skipNewlines (rest : list Ascii.ascii) (si : nat)
  : list Ascii.ascii * nat :=
  match rest with
  | c :: rest' => if isNewline c then skipNewlines rest' (S si) else (rest, si)
  | [] => (rest, si)
  end.

(** Conversion to [byte]: the low eight bits. *)
Definition toByte (n : N) : Byte.byte :=
  default Byte.x00 (Byte.of_N (n mod 256)).

(** "Convert 4x 6bit source bytes into 3 bytes": [dbuf] holds the sextets
    read (missing ones are zero), [dlen] how many there are; [dlen - 1]
    bytes come out. *)
Definition convert (dlen : nat) (dbuf : list N) : list Byte.byte :=
  let val := N.lor (N.lor (N.lor (N.shiftl (nth 0 dbuf 0%N) 18)
                                 (N.shiftl (nth 1 dbuf 0%N) 12))
                          (N.shiftl (nth 2 dbuf 0%N) 6))
                   (nth 3 dbuf 0%N) in
  take (dlen - 1)
    [toByte (N.shiftr val 16); toByte (N.shiftr val 8); toByte val].

(** [Encoding.Decode] with [decodeQuantum], for the standard encoding
    (padding required, not strict): [rest] is [src] from [si] on, [j] and
    [dbuf] are the position in the quantum being read and the sextets read
    so far, [out] the bytes already decoded.  The result is the decoded
    bytes and the offset of a [CorruptInputError], if any.  (The loops of
    [Decode] that take eight and four characters at a time decode a
    quantum of valid characters as [decodeQuantum] does and otherwise call
    it.) *)
Fixpoint decode (srclen : nat) (rest : list Ascii.ascii) (si j : nat)
    (dbuf : list N) (out : list Byte.byte) : list Byte.byte * option nat :=
  match rest with
  | [] =>
      match j with
      | 0 => (out, None)
      | _ => (out, Some (si - j))
      end
  | c :: rest' =>
      let si := S si in
      match decodeMap c with
      | Some d =>
          if decide (j = 3) then
            decode srclen rest' si 0 [] (out ++ convert 4 (dbuf ++ [d]))
          else decode srclen rest' si (S j) (dbuf ++ [d]) out
      | None =>
          if isNewline c then decode srclen rest' si j dbuf out
          else if negb (Ascii.eqb c base64.StdPadding) then
            (out, Some (si - 1))
          else
            match j with
            | 0 | 1 => (out, Some (si - 1))
            | 2 =>
                let '(rest2, si) := skipNewlines rest' si in
                match rest2 with
                | [] => (out, Some srclen)
                | c2 :: rest3 =>
                    if negb (Ascii.eqb c2 base64.StdPadding) then
                      (out, Some (si - 1))
                    else
                      let '(rest4, si) := skipNewlines rest3 (S si) in
                      (out ++ convert 2 dbuf,
                       match rest4 with [] => None | _ => Some si end)
                end
            | _ =>
                let '(rest4, si) := skipNewlines rest' si in
                (out ++ convert j dbuf,
                 match rest4 with [] => None | _ => Some si end)
            end
      end
  end.

(** [DecodeString] returns the bytes represented by the base64 string [s]
    and the offset at which the input is corrupt, if it is. *)
Definition DecodeString (s : string) : list Byte.byte * option nat :=
  decode (String.length s) (String.list_ascii_of_string s) 0 0 [] [].

(** [CorruptInputError.Error]. *)
Definition CorruptInputError (offset : nat) : string :=
  "illegal base64 data at input byte "
  +:+ DecimalString.NilZero.string_of_uint (Nat.to_uint offset).

End base64_decode.

(** [displayedKey.LoadedKey]: the key and [nil], or no key and the error.

    Modelled from the spec: the identifier [ID()] returns for a key made
    from a type and a blob alone is decided in package keys, outside the
    files embedded here; with nothing to derive an identifier from, it is
    [InvalidID]. *)
Definition displayedKey_LoadedKey (d : displayedKey)
  : keys.LoadedKey + string :=
  match base64_decode.DecodeString (dk_Blob d) with
  | (_, Some offset) =>
      inr (UI.Errorf "failed to decode blob"
             (base64_decode.CorruptInputError offset))
  | (blob, None) =>
      inl {| lk_Type := dk_Type d; lk_Blob := blob; lk_ID := InvalidID |}
  end.

(** The 24 bits made of three bytes, as [EncodeToString] and [convert]
    hold them. *)
Definition pack (a b c : Byte.byte) : N :=
  N.lor (N.lor (N.shiftl (Byte.to_N a) 16) (N.shiftl (Byte.to_N b) 8))
        (Byte.to_N c).

(** The sextet of [val] that starts at bit [shift]. *)
Definition six (val shift : N) : N := N.land (N.shiftr val shift) 63.

(** ** The buttons of a key row and the events of the page *)

(** The function [updateDisplayedKeys] registers on the Load button of the
    row of [k]. *)
Definition loadClicked (k : displayedKey) : M () :=
  UI.load (dk_ID k) (dk_Encrypted k).

(** The function registered on the Unload button of the row of [k]. *)
Definition unloadClicked (k : displayedKey) : M () :=
  match displayedKey_LoadedKey k with
  | inr err => UI.setError (Some (UI.Errorf "Failed to get loaded key" err))
  | inl l => UI.unload l
  end.

(** The function registered on the Remove button of the row of [k]. *)
Definition removeClicked (k : displayedKey) : M () :=
  UI.remove (dk_ID k) (dk_Name k).

(** A click on the button of kind [kind] in the row of [k]; nothing happens
    when the row has no such button. *)
Definition clickButton (kind : buttonKind) (k : displayedKey) : M () :=
  if decide (buttonID kind (dk_ID k) ∈ keyControls (UI.keyRow k)) then
    match kind with
    | LoadButton => loadClicked k
    | UnloadButton => unloadClicked k
    | RemoveButton => removeClicked k
    end
  else mret ().

(** What happens to the page: the user clicks an element or a button of the
    [i]-th row (whose functions hold the [i]-th key of the list the rows
    were built from), the user types into an input, the manager answers its
    [n]-th outstanding call, the document has loaded. *)
Inductive Event : Type :=
| Clicks (o : Element)
| ClicksRow (i : nat) (kind : buttonKind)
| Types (o : Element) (v : string)
| Answers (n : nat) (r : Reply)
| ContentLoaded.

Definition step (u : State) (e : Event) : State :=
  match e with
  | Clicks o => exec (UI.DoClick o) u
  | ClicksRow i kind =>
      match keys u !! i with
      | Some k => exec (clickButton kind k) u
      | None => u
      end
  | Types o v => typeInto o v u
  | Answers n r => exec (UI.managerReplies n r) u
  | ContentLoaded => exec UI.updateKeys u
  end.

(** The page after a sequence of events, starting from [New]. *)
Definition run (es : list Event) : State := fold_left step es UI.New.

(** The rows [updateDisplayedKeys] builds for a list of keys. *)
Definition rows (ks : list displayedKey) : list Node :=
  (λ k, NewRow (UI.keyRow k)) <$> ks.

(** The three dialogs, with the element of each and its two buttons. *)
Inductive Dialog : Type := AddDialog | PassphraseDialog | RemoveDialog.

Definition dialogElement (D : Dialog) : Element :=
  match D with
  | AddDialog => addDialog
  | PassphraseDialog => passphraseDialog
  | RemoveDialog => removeDialog
  end.

Definition okButton (D : Dialog) : Element :=
  match D with
  | AddDialog => addOk
  | PassphraseDialog => passphraseOk
  | RemoveDialog => removeYes
  end.

Definition cancelButton (D : Dialog) : Element :=
  match D with
  | AddDialog => addCancel
  | PassphraseDialog => passphraseCancel
  | RemoveDialog => removeNo
  end.

(** The dialog a handler resolves. *)
Definition resolves (h : Handler) : option Dialog :=
  match h with
  | addClicked => None
  | addOkClicked _ | addCancelClicked _ => Some AddDialog
  | passphraseOkClicked _ | passphraseCancelClicked _ => Some PassphraseDialog
  | removeYesClicked _ | removeNoClicked _ => Some RemoveDialog
  end.

(** The handlers an element may carry: the add button runs [add], the
    buttons of a dialog resolve that dialog, nothing else is clickable. *)
Definition belongs (o : Element) (h : Handler) : Prop :=
  match o, h with
  | addButton, addClicked
  | addOk, addOkClicked _ | addCancel, addCancelClicked _
  | passphraseOk, passphraseOkClicked _
  | passphraseCancel, passphraseCancelClicked _
  | removeYes, removeYesClicked _ | removeNo, removeNoClicked _ => True
  | _, _ => False
  end.

(** The add button runs [add]; every handler sits on its own element; a
    dialog is open exactly while its two buttons carry handlers, and they
    carry equally many. *)
Definition disciplined (u : State) : Prop :=
  listeners u addButton = [addClicked] ∧
  (∀ o h, h ∈ listeners u o → belongs o h) ∧
  (∀ D, (open u (dialogElement D) = true ↔ listeners u (okButton D) ≠ []) ∧
        length (listeners u (okButton D))
        = length (listeners u (cancelButton D))).

(** The state after a dialog was resolved. *)
Definition resolved (D : Dialog) (u u' : State) : Prop :=
  (∀ x, listeners u' x
        = if decide (x = okButton D ∨ x = cancelButton D) then []
          else listeners u x) ∧
  (∀ x, open u' x = if decide (x = dialogElement D) then false else open u x).

(** The state after a dialog was opened with the handlers [ho] and [hc]. *)
Definition opened (D : Dialog) (ho hc : Handler) (u u' : State) : Prop :=
  (∀ x, listeners u' x
        = if decide (x = okButton D) then listeners u x ++ [ho]
          else if decide (x = cancelButton D) then listeners u x ++ [hc]
          else listeners u x) ∧
  (∀ x, open u' x = if decide (x = dialogElement D) then true else open u x).

(** ** Looking keys up by name *)

(** [lookupKey]: the first entry with the given name, [None] for [nil]. *)
Fixpoint lookupKey (disp : list displayedKey) (name : string)
  : option displayedKey :=
  match disp with
  | [] => None
  | k :: rest => if decide (dk_Name k = name) then Some k else lookupKey rest name
  end.

(** [findKey] of the tests: the id of the first entry with the given name,
    [InvalidID] when there is none. *)
Fixpoint findKey (disp : list displayedKey) (name : string) : ID :=
  match disp with
  | [] => InvalidID
  | k :: rest => if decide (dk_Name k = name) then dk_ID k else findKey rest name
  end.

(** The ids of the buttons in the rows of a list of keys, in document
    order. *)
Definition buttonIDs (ks : list displayedKey) : list string :=
  ks ≫= (λ k, keyControls (UI.keyRow k)).

(** The state with the manager's outstanding calls replaced. *)
Definition withPending (p : list Pending) (u : State) : State :=
  {| value := value u; children := children u; open := open u;
     listeners := listeners u; keys := keys u; pending := p;
     history := history u |}.

(** A whole add: the user clicks the add button, types a name and a key and
    confirms; the manager then answers the call to [Add] with [err] and,
    after a success, reports the configured and the loaded keys.  The calls
    answered are the last ones made, at position [n]. *)
Definition addEvents (n : nat) (name privateKey : string)
    (err : option string) (configured : list ConfiguredKey)
    (loaded : list LoadedKey) : list Event :=
  [Clicks addButton; Types addName name; Types addKey privateKey;
   Clicks addOk; Answers n (replyError err);
   Answers n (replyConfigured configured None);
   Answers n (replyLoaded loaded None)].

(** ** Package dom: unpacking the arguments of a JavaScript callback *)

Module args.

Section ExpandArgs.
Context {V : Type} (undefined : V).

(** [ExpandArgs] unpacks function arguments to target values.  [target]
    holds the values the target pointers point to, the result the values
    they point to afterwards. *)
Definition ExpandArgs (args target : list V) : list V :=
  (* Assign args to target. *)
  let target :=
    fold_left (λ target i,
                 match args !! i with
                 | Some arg => <[i := arg]> target
                 | None => target
                 end)
      (seq 0 (length args `min` length target)) target in
  (* Any excessive targets are set to undefined. *)
  fold_left (λ target i, <[i := undefined]> target)
    (seq (length args) (length target - length args)) target.

(** [SingleArg] unpacks a single function argument and returns it; the
    zero [js.Value] it starts from is [undefined]. *)
Definition SingleArg (args : list V) : V :=
  let val := undefined in
  default val (head (ExpandArgs args [val])).

End ExpandArgs.

End args.

(** ** syscall/js values, as package chrome uses them *)

Module js.

(** [js.Type] and [Type.String]. *)
Inductive Type_ : Type :=
| TypeUndefined | TypeNull | TypeBoolean | TypeNumber | TypeString
| TypeSymbol | TypeObject | TypeFunction.

Definition Type_String (t : Type_) : string :=
  match t with
  | TypeUndefined => "undefined"
  | TypeNull => "null"
  | TypeBoolean => "boolean"
  | TypeNumber => "number"
  | TypeString => "string"
  | TypeSymbol => "symbol"
  | TypeObject => "object"
  | TypeFunction => "function"
  end.

#[global] Instance Type_eq_dec : EqDecision Type_.
Proof. solve_decision. Defined.

(** A JavaScript value.  A number is kept as the 64 bits of its float, a
    symbol and a function as an opaque identity; an object is the finite
    map of its own enumerable properties. *)
#[warnings="-register-all"]
Inductive Value : Type :=
| Undefined
| Null
| Boolean (b : bool)
| Number (bits : N)
| String_ (s : string)
| Symbol (identity : N)
| Object (properties : gmap string Value)
| Function (identity : N).

Definition Type_of (v : Value) : Type_ :=
  match v with
  | Undefined => TypeUndefined
  | Null => TypeNull
  | Boolean _ => TypeBoolean
  | Number _ => TypeNumber
  | String_ _ => TypeString
  | Symbol _ => TypeSymbol
  | Object _ => TypeObject
  | Function _ => TypeFunction
  end.

(** [v.Get(k)]: a missing property reads as [undefined]. *)
Definition Get (v : Value) (k : string) : Value :=
  match v with
  | Object properties => default Undefined (properties !! k)
  | _ => Undefined
  end.


(** [Object.keys(v)]. *)
Definition keys (v : Value) : list string :=
  match v with
  | Object properties => (map_to_list properties).*1
  | _ => []
  end.

End js.

(** ** Package chrome: storage data *)

Module chrome.



(** [valueToData]: the data, or the error. *)
Definition valueToData (val : js.Value) : gmap string js.Value + string :=
  if decide (js.Type_of val ≠ js.TypeObject) then
    inr ("failed to read data: got unexpected type "
         +:+ js.Type_String (js.Type_of val))
  else
    inl (fold_left (λ data k, <[k := js.Get val k]> data) (js.keys val) ∅).

(** The function [Storage.Get] hands to Chrome's [get]: [lastError] is
    what [chrome.Error()] reports, [args] the arguments Chrome calls the
    function with; the result is what [callback] is called with. *)
Definition getCallback (lastError : option string) (args : list js.Value)
  : option (gmap string js.Value) * option string :=
  match lastError with
  | Some err => (None, Some (UI.Errorf "failed to get data" err))
  | None =>
      match valueToData (args.SingleArg js.Undefined args) with
      | inr err => (None, Some (UI.Errorf "failed to parse data" err))
      | inl data => (Some data, None)
      end
  end.

End chrome.

(** * Properties *)

(** ** Scenarios of the test table *)

(** "display non-configured keys": a key loaded straight into the agent is
    listed first, with no id and no name. *)
Example display_non_configured_keys :
  mergeKeys [alice] [aliceLoaded; stranger]
  = [ {| dk_ID := InvalidID; dk_Loaded := true; dk_Encrypted := false;
         dk_Name := ""; dk_Type := "ssh-rsa"; dk_Blob := "Zm9yZWlnbg==" |};
      {| dk_ID := "1"; dk_Loaded := true; dk_Encrypted := false;
         dk_Name := "alice"; dk_Type := "ssh-rsa";
         dk_Blob := "YWxpY2Uta2V5" |} ].
Proof. reflexivity. Qed.

(** "display loaded key that was previously-configured, then removed". *)
Example display_removed_while_loaded :
  mergeKeys [] [aliceLoaded]
  = [ {| dk_ID := InvalidID; dk_Loaded := true; dk_Encrypted := false;
         dk_Name := ""; dk_Type := "ssh-rsa";
         dk_Blob := "YWxpY2Uta2V5" |} ].
Proof. reflexivity. Qed.

(** "add key": click add, type, click OK; the manager accepts and reports
    the configured and the loaded keys. *)
Example add_key :
  let typed := typeInto addKey "private-key"
                 (typeInto addName "bob" (exec (UI.DoClick addButton) UI.New)) in
  let added := exec (UI.managerReplies 0 (replyError None))
                 (exec (UI.DoClick addOk) typed) in
  let shown := exec (UI.managerReplies 0 (replyLoaded [] None))
                 (exec (UI.managerReplies 0 (replyConfigured [bob] None)) added) in
  keys shown = [shownConfigured bob] ∧
  children shown keysData
    = [NewRow {| keyName := "bob"; keyControls := ["load-2"; "remove-2"];
                 keyType := ""; keyBlob := "" |}] ∧
  children shown errorText = [] ∧ pending shown = [].
Proof. by vm_compute. Qed.


(** ** Comparisons *)

Lemma string_compare_order : CompareOrder String.compare.
Proof.
  split.
  - intros x y. split.
    + apply String.compare_eq_iff.
    + intros ->. induction y as [|c y IH]; simpl; [done|].
      unfold Ascii.compare. by rewrite N.compare_refl.
  - intros x y. apply String.compare_antisym.
  - intros x y z Hxy Hyz.
    apply OrderedTypeEx.String_as_OT.cmp_lt.
    apply OrderedTypeEx.String_as_OT.cmp_lt in Hxy, Hyz.
    by eapply OrderedTypeEx.String_as_OT.lt_trans.
Qed.

Section compare_order.
Context {A : Type} (cmp : A → A → comparison) (Hcmp : CompareOrder cmp).

Lemma cmp_refl x : cmp x x = Eq.
Proof using Hcmp. by apply (cmp_eq _ Hcmp). Qed.

Lemma cmp_gt_lt x y : cmp x y = Gt ↔ cmp y x = Lt.
Proof using Hcmp.
  rewrite (cmp_opp _ Hcmp x y). destruct (cmp x y); simpl; split; congruence.
Qed.

(** "Not smaller" is transitive. *)
Lemma cmp_not_lt_trans x y z :
  cmp x y ≠ Lt → cmp y z ≠ Lt → cmp x z ≠ Lt.
Proof using Hcmp.
  intros Hxy Hyz Hxz. destruct (cmp x y) eqn:E; [| done |].
  - apply (cmp_eq _ Hcmp) in E as ->. done.
  - apply cmp_gt_lt in E. apply Hyz.
    by apply (cmp_lt_trans _ Hcmp y x z).
Qed.
End compare_order.

Lemma lexCompare_order {A B : Type} (ca : A → A → comparison)
    (cb : B → B → comparison) :
  CompareOrder ca → CompareOrder cb → CompareOrder (lexCompare ca cb).
Proof.
  intros Ha Hb. split.
  - intros [x1 x2] [y1 y2]. unfold lexCompare. simpl. split.
    + destruct (ca x1 y1) eqn:E; try done.
      intros E2. apply (cmp_eq _ Ha) in E. apply (cmp_eq _ Hb) in E2.
      congruence.
    + intros [= -> ->]. rewrite (cmp_refl _ Ha). apply (cmp_refl _ Hb).
  - intros [x1 x2] [y1 y2]. unfold lexCompare. simpl.
    rewrite (cmp_opp _ Ha x1 y1), (cmp_opp _ Hb x2 y2).
    by destruct (ca x1 y1).
  - intros [x1 x2] [y1 y2] [z1 z2]. unfold lexCompare. simpl.
    destruct (ca x1 y1) eqn:Exy; try done.
    + apply (cmp_eq _ Ha) in Exy as ->.
      destruct (ca y1 z1) eqn:Eyz; try done.
      apply (cmp_lt_trans _ Hb).
    + intros _. destruct (ca y1 z1) eqn:Eyz; try done.
      * apply (cmp_eq _ Ha) in Eyz as <-. by rewrite Exy.
      * by rewrite (cmp_lt_trans _ Ha _ _ _ Exy Eyz).
Qed.

Lemma keyCompare_order : CompareOrder keyCompare.
Proof.
  unfold keyCompare.
  apply (lexCompare_order String.compare
           (lexCompare String.compare String.compare)).
  - apply string_compare_order.
  - apply lexCompare_order; apply string_compare_order.
Qed.

(** [less] is "smaller" in the comparison of sort keys. *)
Lemma less_keyCompare a b :
  less a b = true ↔ keyCompare (sortKey a) (sortKey b) = Lt.
Proof.
  unfold less, keyCompare, lexCompare, sortKey, String.ltb. simpl.
  rewrite (String.compare_antisym (dk_Name a) (dk_Name b)).
  rewrite (String.compare_antisym (dk_Blob a) (dk_Blob b)).
  destruct (String.compare (dk_Name b) (dk_Name a)); simpl; try done.
  destruct (String.compare (dk_Blob b) (dk_Blob a)); simpl; try done.
  by destruct (String.compare (dk_ID a) (dk_ID b)).
Qed.

Lemma less_false a b :
  less a b = false ↔ keyCompare (sortKey a) (sortKey b) ≠ Lt.
Proof. rewrite <- less_keyCompare. by destruct (less a b). Qed.

Lemma less_precedes a b : less a b = true ↔ precedes a b.
Proof.
  rewrite less_keyCompare.
  unfold keyCompare, lexCompare, sortKey, precedes, strLt. simpl.
  destruct (String.compare (dk_Name a) (dk_Name b)) eqn:En.
  - apply String.compare_eq_iff in En.
    destruct (String.compare (dk_Blob a) (dk_Blob b)) eqn:Eb.
    + apply String.compare_eq_iff in Eb. naive_solver.
    + naive_solver.
    + split; [done|]. intros [?|[[_ ?]|(_ & Hb & _)]]; try done.
      rewrite Hb, (cmp_refl _ string_compare_order) in Eb. done.
  - naive_solver.
  - split; [done|]. intros [?|[[Hn _]|(Hn & _)]]; try done;
      rewrite Hn, (cmp_refl _ string_compare_order) in En; done.
Qed.

Lemma less_asym a b : less a b = true → less b a = false.
Proof.
  rewrite less_keyCompare, less_false. intros H.
  apply (cmp_gt_lt _ keyCompare_order) in H. congruence.
Qed.

Lemma less_false_trans a b c :
  less a b = false → less b c = false → less a c = false.
Proof.
  rewrite !less_false. apply (cmp_not_lt_trans _ keyCompare_order).
Qed.

(** "Not after": [b] is not smaller than [a]. *)
Lemma not_less_ascending a b : less b a = false ↔ ascending a b.
Proof.
  unfold ascending. rewrite <- less_precedes, less_keyCompare, less_false.
  unfold sameKey.
  rewrite <- (cmp_eq _ keyCompare_order).
  rewrite (cmp_opp _ keyCompare_order (sortKey a) (sortKey b)).
  destruct (keyCompare (sortKey a) (sortKey b)); simpl; naive_solver.
Qed.

(** ** [sort.Slice] *)

Section slice.
Context {A : Type} (lt : A → A → bool).

Lemma shiftLeft_perm x l : sort.shiftLeft lt x l ≡ₚ x :: l.
Proof.
  induction l as [|y l IH]; simpl; [done|].
  destruct (lt x y); [|done].
  rewrite IH. apply Permutation_swap.
Qed.

Lemma Slice_perm l : sort.Slice lt l ≡ₚ l.
Proof.
  unfold sort.Slice. rewrite <- Permutation_rev.
  enough (∀ acc, fold_left (λ acc x, sort.shiftLeft lt x acc) l acc ≡ₚ l ++ acc)
    as H by (rewrite H; by rewrite app_nil_r).
  induction l as [|x l IH]; intros acc; simpl; [done|].
  rewrite IH, shiftLeft_perm. by rewrite Permutation_middle.
Qed.

Hypothesis lt_asym : ∀ x y, lt x y = true → lt y x = false.
Hypothesis lt_false_trans :
  ∀ x y z, lt x y = false → lt y z = false → lt x z = false.

(** The sorted prefix, last element first: nothing is smaller than an
    element to its right. *)
Let descending (y z : A) : Prop := lt y z = false.

Lemma shiftLeft_sorted x l :
  StronglySorted descending l →
  StronglySorted descending (sort.shiftLeft lt x l).
Proof using lt_asym lt_false_trans.
  induction 1 as [|y l Hl IH Hy]; simpl.
  - repeat constructor.
  - destruct (lt x y) eqn:E.
    + constructor; [done|].
      rewrite shiftLeft_perm. constructor; [|done].
      by apply lt_asym.
    + constructor; [by constructor|].
      constructor; [done|].
      eapply List.Forall_impl; [|exact Hy].
      intros z Hz. by eapply lt_false_trans.
Qed.

Lemma StronglySorted_rev_flip (R : A → A → Prop) l :
  StronglySorted R l → StronglySorted (flip R) (rev l).
Proof.
  induction 1 as [|y l Hl IH Hy]; simpl; [constructor|].
  apply StronglySorted_app_2; [|done|repeat constructor].
  intros z1 z2 Hz1 Hz2. apply list_elem_of_singleton in Hz2 as ->.
  rewrite list_elem_of_In, <- in_rev, <- list_elem_of_In in Hz1.
  unfold flip. rewrite Forall_forall in Hy. by apply Hy.
Qed.

Lemma Slice_sorted l :
  StronglySorted (λ a b, lt b a = false) (sort.Slice lt l).
Proof using lt_asym lt_false_trans.
  unfold sort.Slice.
  apply (StronglySorted_rev_flip descending).
  enough (∀ acc, StronglySorted descending acc →
            StronglySorted descending
              (fold_left (λ acc x, sort.shiftLeft lt x acc) l acc))
    as H by (apply H; constructor).
  induction l as [|x l IH]; intros acc Hacc; simpl; [done|].
  apply IH. by apply shiftLeft_sorted.
Qed.
End slice.

Lemma mergeKeys_perm configured loaded :
  mergeKeys configured loaded ≡ₚ collectKeys configured loaded.
Proof. apply Slice_perm. Qed.

Lemma mergeKeys_sorted_ascending configured loaded :
  StronglySorted ascending (mergeKeys configured loaded).
Proof.
  unfold mergeKeys.
  pose proof (Slice_sorted less less_asym less_false_trans
                (collectKeys configured loaded)) as H.
  induction H as [|a l Hl IH Ha]; constructor; [done|].
  eapply List.Forall_impl; [|exact Ha].
  intros b. apply not_less_ascending.
Qed.

Lemma precedes_not_ascending a b : precedes a b → ¬ ascending b a.
Proof.
  rewrite <- less_precedes, <- not_less_ascending. congruence.
Qed.

Lemma precedes_irrefl a : ¬ precedes a a.
Proof.
  intros H. apply (precedes_not_ascending a a H). by right.
Qed.

Lemma StronglySorted_lookup {A : Type} (R : A → A → Prop) (l : list A) i j a b :
  StronglySorted R l → i < j → l !! i = Some a → l !! j = Some b → R a b.
Proof.
  intros Hl. revert i j. induction Hl as [|x l Hl IH Hx]; intros i j Hij Hi Hj.
  - done.
  - destruct j as [|j]; [lia|]. destruct i as [|i]; simpl in *.
    + injection Hi as ->. rewrite Forall_forall in Hx. apply Hx.
      by eapply list_elem_of_lookup_2.
    + apply (IH i j); [lia|done..].
Qed.

(** ** What [mergeKeys] collects *)

Lemma filter_iff_elem {A : Type} (P1 P2 : A → Prop)
    `{!∀ x, Decision (P1 x), !∀ x, Decision (P2 x)} (l : list A) :
  (∀ x, x ∈ l → P1 x ↔ P2 x) → filter P1 l = filter P2 l.
Proof.
  induction l as [|a l IH]; intros Hiff; [done|].
  rewrite !filter_cons.
  rewrite IH by (intros x Hx; apply Hiff; by right).
  assert (P1 a ↔ P2 a) as Ha by (apply Hiff; by left).
  destruct (decide (P1 a)) as [Ha1|Ha1], (decide (P2 a)) as [Ha2|Ha2];
    try done; exfalso; tauto.
Qed.

Section configuredMap.
Implicit Types (configured : list ConfiguredKey) (m : gmap ID ConfiguredKey).

Lemma fold_put_is_Some configured m id :
  is_Some (fold_left put configured m !! id) ↔
  id ∈ ck_ID <$> configured ∨ is_Some (m !! id).
Proof.
  revert m. induction configured as [|a l IH]; intros m; simpl.
  - rewrite elem_of_nil. naive_solver.
  - rewrite IH, elem_of_cons. unfold put.
    destruct (decide (ck_ID a = id)) as [->|Hne].
    + rewrite lookup_insert_eq. naive_solver.
    + rewrite lookup_insert_ne by done. naive_solver.
Qed.

Lemma fold_put_elem configured m id k :
  fold_left put configured m !! id = Some k →
  (k ∈ configured ∧ ck_ID k = id) ∨ m !! id = Some k.
Proof.
  revert m. induction configured as [|a l IH]; intros m; simpl; [by right|].
  intros H. apply IH in H as [[? ?]|H].
  - left. split; [by right|done].
  - unfold put in H. destruct (decide (ck_ID a = id)) as [<-|Hne].
    + rewrite lookup_insert_eq in H. injection H as <-.
      left. split; [by left|done].
    + rewrite lookup_insert_ne in H by done. by right.
Qed.

Lemma configuredMap_is_Some configured id :
  is_Some (buildConfiguredMap configured !! id) ↔ id ∈ ck_ID <$> configured.
Proof.
  unfold buildConfiguredMap. rewrite (fold_put_is_Some configured ∅ id).
  rewrite lookup_empty. split; [|by left].
  intros [?|[? ?]]; done.
Qed.

Lemma configuredMap_elem configured id k :
  buildConfiguredMap configured !! id = Some k →
  k ∈ configured ∧ ck_ID k = id.
Proof.
  intros H. apply (fold_put_elem configured ∅) in H as [?|H]; [done|].
  by rewrite lookup_empty in H.
Qed.

(** With no identifier configured twice, the map holds every key under its
    identifier. *)
Lemma configuredMap_lookup configured k :
  NoDup (ck_ID <$> configured) → k ∈ configured →
  buildConfiguredMap configured !! ck_ID k = Some k.
Proof.
  unfold buildConfiguredMap. generalize (∅ : gmap ID ConfiguredKey).
  induction configured as [|a l IH]; intros m Hnd Hk; [by inv Hk|].
  rewrite fmap_cons in Hnd. apply NoDup_cons in Hnd as [Ha Hnd].
  simpl. apply elem_of_cons in Hk as [->|Hk]; [|by apply IH].
  destruct (fold_left put l (put m a) !! ck_ID a) as [k|] eqn:E.
  - apply fold_put_elem in E as [[Hk Hid]|E].
    + exfalso. apply Ha. rewrite <- Hid. by apply list_elem_of_fmap_2.
    + unfold put in E. by rewrite lookup_insert_eq in E.
  - exfalso. apply eq_None_not_Some in E. apply E.
    apply fold_put_is_Some. right. unfold put.
    by rewrite lookup_insert_eq.
Qed.

Lemma configuredMap_perm configured configured' :
  NoDup (ck_ID <$> configured) → configured ≡ₚ configured' →
  buildConfiguredMap configured = buildConfiguredMap configured'.
Proof.
  intros Hnd Hp. assert (NoDup (ck_ID <$> configured')) as Hnd'
    by (by rewrite <- Hp).
  apply map_eq. intros id.
  destruct (buildConfiguredMap configured !! id) as [k|] eqn:E.
  - apply configuredMap_elem in E as [Hk <-]. symmetry.
    apply configuredMap_lookup; [done|]. by rewrite <- Hp.
  - symmetry. apply eq_None_not_Some. rewrite configuredMap_is_Some.
    rewrite <- Hp. rewrite <- configuredMap_is_Some.
    by apply eq_None_not_Some.
Qed.
End configuredMap.

Lemma addLoaded_shown configuredMap result loadedIds l :
  (addLoaded configuredMap (result, loadedIds) l).1
  = result ++ [shownLoaded configuredMap l].
Proof.
  unfold addLoaded, shownLoaded, unconfigured. simpl.
  destruct (decide (lk_ID l ≠ InvalidID)) as [Hv|Hv].
  - destruct (configuredMap !! lk_ID l); [|done].
    by rewrite decide_False by done.
  - destruct (configuredMap !! lk_ID l); [|done].
    rewrite decide_True; [done|]. by destruct (decide (lk_ID l = InvalidID)).
Qed.

Lemma addLoaded_ids configuredMap result loadedIds l id :
  isLoaded (addLoaded configuredMap (result, loadedIds) l).2 id = true ↔
  isLoaded loadedIds id = true ∨
  (derives l id ∧ is_Some (configuredMap !! id)).
Proof.
  unfold addLoaded, derives. simpl.
  destruct (decide (lk_ID l ≠ InvalidID)) as [Hv|Hv]; [|naive_solver].
  destruct (configuredMap !! lk_ID l) as [ak|] eqn:E; simpl.
  - unfold isLoaded. destruct (decide (lk_ID l = id)) as [<-|Hne].
    + rewrite lookup_insert_eq, E. naive_solver.
    + rewrite lookup_insert_ne by done. naive_solver.
  - split; [by left|]. intros [?|[[_ <-] [? ?]]]; [done|congruence].
Qed.

Lemma fold_addLoaded configuredMap loaded result loadedIds :
  (fold_left (addLoaded configuredMap) loaded (result, loadedIds)).1
  = result ++ (shownLoaded configuredMap <$> loaded) ∧
  ∀ id,
    isLoaded (fold_left (addLoaded configuredMap) loaded (result, loadedIds)).2
      id = true ↔
    isLoaded loadedIds id = true ∨
    (Exists (λ l, derives l id) loaded ∧ is_Some (configuredMap !! id)).
Proof.
  revert result loadedIds.
  induction loaded as [|l loaded IH]; intros result loadedIds; cbn [fold_left].
  - split; [by rewrite app_nil_r|]. intros id. rewrite Exists_nil. naive_solver.
  - destruct (addLoaded configuredMap (result, loadedIds) l) as [r ids] eqn:E.
    pose proof (addLoaded_shown configuredMap result loadedIds l) as H1.
    pose proof (addLoaded_ids configuredMap result loadedIds l) as H2.
    rewrite E in H1, H2. simpl in H1, H2. subst r.
    destruct (IH (result ++ [shownLoaded configuredMap l]) ids) as [IH1 IH2].
    split.
    + rewrite IH1. by rewrite <- app_assoc.
    + intros id. rewrite IH2, H2, Exists_cons. naive_solver.
Qed.

Lemma fold_addConfigured loadedIds configured result :
  fold_left (addConfigured loadedIds) configured result
  = result ++ (shownConfigured <$>
                 filter (λ a, isLoaded loadedIds (ck_ID a) = false) configured).
Proof.
  revert result. induction configured as [|a l IH]; intros result; simpl.
  - by rewrite app_nil_r.
  - rewrite IH, filter_cons. unfold addConfigured.
    destruct (isLoaded loadedIds (ck_ID a)) eqn:E.
    + by rewrite decide_False by done.
    + rewrite decide_True by done. by rewrite <- app_assoc.
Qed.

(** One entry for each loaded key, then one for each configured key that no
    loaded key matches. *)
Lemma collectKeys_shown configured loaded :
  collectKeys configured loaded
  = (shownLoaded (buildConfiguredMap configured) <$> loaded)
    ++ (shownConfigured <$> filter (λ a, ¬ matched loaded a) configured).
Proof.
  unfold collectKeys.
  pose proof (fold_addLoaded (buildConfiguredMap configured) loaded [] ∅)
    as [H1 H2]. simpl in H1, H2.
  destruct (fold_left (addLoaded (buildConfiguredMap configured)) loaded ([], ∅))
    as [result loadedIds]. simpl in H1, H2. subst result.
  rewrite fold_addConfigured. f_equal. f_equal.
  apply filter_iff_elem. intros a Ha.
  rewrite <- not_true_iff_false, H2. unfold matched, isLoaded.
  rewrite lookup_empty. simpl.
  assert (is_Some (buildConfiguredMap configured !! ck_ID a)) as Hin.
  { apply configuredMap_is_Some. by apply list_elem_of_fmap_2. }
  naive_solver.
Qed.

(** ** The display list *)

(** C1: the list [mergeKeys] returns is in ascending order of
    (name, blob, id): an entry stands before another only if its key is
    smaller or the same, an entry with a smaller key stands before one with
    a larger key, and "smaller" is what the comparison of [mergeKeys]
    computes: name smaller, or names equal and blob smaller, or names and
    blobs equal and id smaller. *)
Theorem mergeKeys_sorted configured loaded :
  StronglySorted ascending (mergeKeys configured loaded) ∧
  (∀ i j a b,
     mergeKeys configured loaded !! i = Some a →
     mergeKeys configured loaded !! j = Some b →
     (i < j → ascending a b) ∧ (precedes a b → i < j)) ∧
  (∀ a b, less a b = true ↔ precedes a b).
Proof.
  pose proof (mergeKeys_sorted_ascending configured loaded) as Hs.
  split; [done|]. split; [|apply less_precedes].
  intros i j a b Hi Hj. split.
  - intros Hij. by eapply (StronglySorted_lookup ascending).
  - intros Hab. destruct (decide (i < j)) as [|Hge]; [done|]. exfalso.
    destruct (decide (i = j)) as [->|Hne].
    + rewrite Hi in Hj. injection Hj as ->. by eapply precedes_irrefl.
    + apply (precedes_not_ascending a b Hab).
      eapply (StronglySorted_lookup ascending _ j i); [done|lia|done..].
Qed.

Lemma mergeKeys_sorted_witness :
  ascending (unconfigured stranger) (shownConfigured bob).
Proof.
  destruct (mergeKeys_sorted [bob; alice] [aliceLoaded; stranger])
    as (_ & H & _).
  apply (H 0 2 (unconfigured stranger) (shownConfigured bob));
    [reflexivity | reflexivity | lia].
Defined.

(** C3: the list [mergeKeys] returns holds exactly one entry for each
    element of the loaded list and one for each configured key that no
    loaded key matches, so its length is the number of loaded keys plus the
    number of unmatched configured keys; entries are never merged, whatever
    their names and blobs.  With both inputs empty it is empty. *)
Theorem mergeKeys_contents configured loaded :
  mergeKeys configured loaded
    ≡ₚ (shownLoaded (buildConfiguredMap configured) <$> loaded)
       ++ (shownConfigured <$> filter (λ a, ¬ matched loaded a) configured) ∧
  length (mergeKeys configured loaded)
    = length loaded + length (filter (λ a, ¬ matched loaded a) configured) ∧
  mergeKeys [] [] = [].
Proof.
  assert (mergeKeys configured loaded
    ≡ₚ (shownLoaded (buildConfiguredMap configured) <$> loaded)
       ++ (shownConfigured <$> filter (λ a, ¬ matched loaded a) configured))
    as Hp by (rewrite mergeKeys_perm; by rewrite collectKeys_shown).
  split; [done|]. split; [|reflexivity].
  rewrite Hp. by rewrite length_app, !length_fmap.
Qed.

Lemma shownLoaded_unconfigured configured l :
  lk_ID l = InvalidID ∨ lk_ID l ∉ ck_ID <$> configured →
  shownLoaded (buildConfiguredMap configured) l = unconfigured l.
Proof.
  intros H. unfold shownLoaded.
  destruct (buildConfiguredMap configured !! lk_ID l) as [ak|] eqn:E; [|done].
  destruct (decide (lk_ID l = InvalidID)) as [|Hv]; [done|].
  destruct H as [?|Hnot]; [done|]. exfalso. apply Hnot.
  apply configuredMap_is_Some. by exists ak.
Qed.

Lemma unconfigured_shown configured loaded l :
  l ∈ loaded →
  lk_ID l = InvalidID ∨ lk_ID l ∉ ck_ID <$> configured →
  unconfigured l ∈ mergeKeys configured loaded.
Proof.
  intros Hl Hid. rewrite mergeKeys_perm, collectKeys_shown.
  apply elem_of_app. left.
  rewrite <- (shownLoaded_unconfigured configured l Hid).
  by apply list_elem_of_fmap_2.
Qed.

(** C4: a loaded key whose derived id is INVALID, or is not the id of any
    configured key, is in the list [mergeKeys] returns, as an entry with
    id INVALID, the empty name, loaded set, and the type and the base64 of
    the blob of the loaded key. *)
Theorem mergeKeys_keeps_unconfigured configured loaded l :
  l ∈ loaded →
  lk_ID l = InvalidID ∨ lk_ID l ∉ ck_ID <$> configured →
  {| dk_ID := InvalidID; dk_Loaded := true; dk_Encrypted := false;
     dk_Name := ""; dk_Type := lk_Type l;
     dk_Blob := base64.EncodeToString (lk_Blob l) |}
    ∈ mergeKeys configured loaded.
Proof. apply unconfigured_shown. Qed.

Lemma mergeKeys_keeps_unconfigured_witness :
  {| dk_ID := InvalidID; dk_Loaded := true; dk_Encrypted := false;
     dk_Name := ""; dk_Type := "ssh-ed25519"; dk_Blob := "b3RoZXIta2V5" |}
    ∈ mergeKeys [bob] [stranger; aliceAgain].
Proof.
  apply (mergeKeys_keeps_unconfigured [bob] [stranger; aliceAgain] aliceAgain).
  - apply list_elem_of_In. simpl. auto.
  - right. rewrite list_elem_of_In. simpl. intros [H|[]]. discriminate H.
Defined.

(** C10: no entry of the list [mergeKeys] returns is both loaded and
    encrypted: an entry with loaded set has encrypted unset. *)
Theorem mergeKeys_loaded_not_encrypted configured loaded d :
  d ∈ mergeKeys configured loaded →
  dk_Loaded d = true → dk_Encrypted d = false.
Proof.
  rewrite mergeKeys_perm, collectKeys_shown, elem_of_app, !list_elem_of_fmap.
  intros [(l & -> & _)|(a & -> & _)] Hl.
  - unfold shownLoaded, unconfigured.
    by repeat (case_match; simpl).
  - discriminate Hl.
Qed.

Lemma mergeKeys_loaded_not_encrypted_witness :
  dk_Encrypted (shownLoaded (buildConfiguredMap [alice]) aliceLoaded) = false.
Proof.
  apply (mergeKeys_loaded_not_encrypted [alice] [aliceLoaded]).
  - apply list_elem_of_In. vm_compute. auto.
  - reflexivity.
Defined.

Lemma length_filter_fmap_le {A B : Type} (f : A → B) (P : B → Prop)
    (Q : A → Prop) `{!∀ y, Decision (P y), !∀ x, Decision (Q x)} (l : list A) :
  (∀ x, P (f x) → Q x) →
  length (filter P (f <$> l)) ≤ length (filter Q l).
Proof.
  intros HPQ. induction l as [|x l IH]; [done|].
  rewrite fmap_cons, !filter_cons.
  destruct (decide (P (f x))) as [HP|HP].
  - rewrite decide_True by auto. simpl. lia.
  - destruct (decide (Q x)); simpl; lia.
Qed.

Lemma carries_shownLoaded configuredMap c l :
  ck_ID c ≠ InvalidID →
  carries c (shownLoaded configuredMap l) → lk_ID l = ck_ID c.
Proof.
  intros Hv (_ & Hid & _). unfold shownLoaded, unconfigured in Hid.
  repeat case_match; simpl in Hid; congruence.
Qed.

(** The entries that show a configured key as loaded are no more than the
    loaded keys that carry its identifier. *)
Lemma carries_count configured loaded c :
  ck_ID c ≠ InvalidID →
  length (filter (carries c) (mergeKeys configured loaded))
  ≤ length (filter (λ l, lk_ID l = ck_ID c) loaded).
Proof.
  intros Hv. rewrite mergeKeys_perm, collectKeys_shown, filter_app, length_app.
  assert (filter (carries c)
            (shownConfigured <$> filter (λ a, ¬ matched loaded a) configured)
          = []) as ->.
  { induction (filter (λ a, ¬ matched loaded a) configured) as [|a l IH];
      [done|].
    rewrite fmap_cons, filter_cons, decide_False; [done|].
    intros (Hl & _). discriminate Hl. }
  simpl. rewrite Nat.add_0_r.
  apply length_filter_fmap_le. intros l. by apply carries_shownLoaded.
Qed.

(** C5, as the code has it: a configured key with a valid id whose id at
    most one loaded key carries is shown as loaded by at most one entry; and
    a loaded key for which no id can be derived is shown as unmatched, with
    id INVALID and the empty name. *)
Theorem mergeKeys_matched_at_most_once configured loaded :
  (∀ c, c ∈ configured → ck_ID c ≠ InvalidID →
        length (filter (λ l, lk_ID l = ck_ID c) loaded) ≤ 1 →
        length (filter (carries c) (mergeKeys configured loaded)) ≤ 1) ∧
  (∀ l, l ∈ loaded → lk_ID l = InvalidID →
        unconfigured l ∈ mergeKeys configured loaded).
Proof.
  split.
  - intros c _ Hv Hone. etrans; [by apply carries_count|done].
  - intros l Hl Hid. apply unconfigured_shown; auto.
Qed.

Lemma mergeKeys_matched_at_most_once_witness :
  length (filter (carries alice) (mergeKeys [bob; alice] [stranger; aliceLoaded]))
    ≤ 1 ∧
  unconfigured stranger ∈ mergeKeys [bob; alice] [stranger; aliceLoaded].
Proof.
  destruct (mergeKeys_matched_at_most_once [bob; alice] [stranger; aliceLoaded])
    as [H1 H2].
  split.
  - apply (H1 alice).
    + apply list_elem_of_In. simpl. auto.
    + discriminate.
    + vm_compute. lia.
  - apply (H2 stranger).
    + apply list_elem_of_In. simpl. auto.
    + reflexivity.
Defined.

(** C5 fails as stated: when two keys in the agent carry the identifier of
    one configured key, both are shown as that key, loaded. *)
Lemma mergeKeys_matched_twice :
  ¬ length (filter (carries alice) (mergeKeys [alice] [aliceLoaded; aliceAgain]))
    ≤ 1.
Proof. vm_compute. lia. Qed.

Lemma matched_perm loaded loaded' c :
  loaded ≡ₚ loaded' → matched loaded c ↔ matched loaded' c.
Proof.
  intros Hp. unfold matched. rewrite !Exists_exists.
  by setoid_rewrite Hp.
Qed.

Lemma collectKeys_perm configured configured' loaded loaded' :
  NoDup (ck_ID <$> configured) →
  configured ≡ₚ configured' → loaded ≡ₚ loaded' →
  collectKeys configured' loaded' ≡ₚ collectKeys configured loaded.
Proof.
  intros Hnd Hc Hl. rewrite !collectKeys_shown.
  rewrite <- (configuredMap_perm configured configured' Hnd Hc).
  rewrite (list_filter_iff (λ a, ¬ matched loaded' a) (λ a, ¬ matched loaded a))
    by (intros a; by rewrite (matched_perm loaded loaded' a Hl)).
  apply Permutation_app; [by rewrite Hl|by rewrite Hc].
Qed.

(** C2, as the code has it: when no id is configured twice and no two
    different entries of the result share name, blob and id, [mergeKeys]
    returns the same list for every order of the configured keys and every
    order of the loaded keys. *)
Theorem mergeKeys_order_independent configured configured' loaded loaded' :
  NoDup (ck_ID <$> configured) →
  keyDetermined (mergeKeys configured loaded) →
  configured ≡ₚ configured' → loaded ≡ₚ loaded' →
  mergeKeys configured' loaded' = mergeKeys configured loaded.
Proof.
  intros Hnd Hkd Hc Hl.
  assert (mergeKeys configured' loaded' ≡ₚ mergeKeys configured loaded) as Hp.
  { rewrite !mergeKeys_perm. by apply collectKeys_perm. }
  apply (StronglySorted_unique_strong ascending);
    [|apply mergeKeys_sorted_ascending..|done].
  intros a b Ha Hb Hab Hba. rewrite Hp in Ha.
  apply Hkd; [done..|].
  destruct Hab as [Hab|Hab]; [|done].
  by apply precedes_not_ascending in Hab.
Qed.

Lemma mergeKeys_order_independent_witness :
  mergeKeys [alice; bob] [aliceLoaded; stranger]
  = mergeKeys [bob; alice] [stranger; aliceLoaded].
Proof.
  apply (mergeKeys_order_independent
           [bob; alice] [alice; bob] [stranger; aliceLoaded]
           [aliceLoaded; stranger]).
  - apply NoDup_ListNoDup. vm_compute.
    repeat constructor; simpl; intuition discriminate.
  - intros a b Ha Hb. apply list_elem_of_In in Ha, Hb.
    vm_compute in Ha, Hb. unfold sameKey, sortKey.
    destruct Ha as [<-|[<-|[<-|[]]]]; destruct Hb as [<-|[<-|[<-|[]]]];
      simpl; intros H; try reflexivity; discriminate H.
  - apply Permutation_swap.
  - apply Permutation_swap.
Defined.

(** C2 fails as stated: two loaded keys with the same blob and derived id
    but different types keep the order in which they were handed in. *)
Lemma mergeKeys_order_dependent :
  NoDup (ck_ID <$> []) ∧
  [stranger; strangerTwin] ≡ₚ [strangerTwin; stranger] ∧
  mergeKeys [] [strangerTwin; stranger] ≠ mergeKeys [] [stranger; strangerTwin].
Proof.
  split; [constructor|]. split; [apply Permutation_swap|].
  vm_compute. discriminate.
Qed.

(** ** The action flows *)

Lemma exec_then (m k : M ()) u : exec (m;; k) u = exec k (exec m u).
Proof.
  unfold exec, mbind, M_bind. by destruct (m u) as [[] u'].
Qed.

Lemma exec_forEach_cons {A : Type} (x : A) l (body : A → M ()) u :
  exec (forEach (x :: l) body) u = exec (forEach l body) (exec (body x) u).
Proof. apply exec_then. Qed.

Lemma exec_DoClick o u :
  exec (UI.DoClick o) u = exec (forEach (listeners u o) UI.fire) u.
Proof. reflexivity. Qed.

(** No click handler touches the error text. *)
Lemma fire_keeps_error h u :
  children (exec (UI.fire h) u) errorText = children u errorText.
Proof. by destruct h as [|[]|[]|[]|[]|[]|[]]. Qed.

Lemma DoClick_keeps_error o u :
  children (exec (UI.DoClick o) u) errorText = children u errorText.
Proof.
  rewrite exec_DoClick. generalize (listeners u o). intros hs. revert u.
  induction hs as [|h hs IH]; intros u; [done|].
  by rewrite exec_forEach_cons, IH, fire_keeps_error.
Qed.

Lemma forEach_row_keeps_error ks u :
  children
    (exec (forEach ks (λ k, DOM.AppendChild keysData (NewRow (UI.keyRow k)))) u)
    errorText
  = children u errorText.
Proof.
  revert u. induction ks as [|k ks IH]; intros u; [done|].
  by rewrite exec_forEach_cons, IH.
Qed.

Lemma exec_getKeys (k : list displayedKey → M ()) u :
  exec (getKeys ≫= k) u = exec (k (keys u)) u.
Proof. reflexivity. Qed.

Lemma loadedDone_clears_error configured loaded u :
  children (exec (UI.loadedDone configured loaded None) u) errorText = [].
Proof.
  unfold UI.loadedDone, UI.updateDisplayedKeys.
  by rewrite !exec_then, exec_getKeys, forEach_row_keeps_error.
Qed.

(** What an answer of the manager does to the error text. *)
Lemma managerReplies_error n r u :
  let u' := exec (UI.managerReplies n r) u in
  children u' errorText = children u errorText ∨
  (errorOf r = None ∧ children u' errorText = []) ∨
  (∃ prefix e, errorOf r = Some e ∧
               children u' errorText = [NewText (UI.Errorf prefix e)]).
Proof.
  cbv zeta. unfold exec, UI.managerReplies.
  destruct (pending u !! n) as [call|] eqn:Hn; [|by left].
  destruct call as [name privateKey|id passphrase|key|id| |configured],
    r as [[e|]|cs [e|]|ls [e|]]; try (by left);
    unfold takePending, mbind, M_bind; rewrite Hn;
    try (left; reflexivity);
    try (right; right; eexists _, e; split; reflexivity);
    try (right; left; split; reflexivity).
  right. left. split; [done|].
  apply (loadedDone_clears_error configured ls).
Qed.

(** C6, as the code has it: starting a flow and resolving its dialog,
    confirmed or cancelled, leave the error slot as it was; the slot is
    cleared when the manager reports that the action succeeded, and set, to
    the one message of that action, when the manager reports a failure.
    Whatever the manager answers, the slot is set only by an answer that
    carries an error. *)
Theorem error_slot_follows_manager :
  (∀ f u, children (exec (start f) u) errorText = children u errorText) ∧
  (∀ o u, children (exec (UI.DoClick o) u) errorText = children u errorText) ∧
  (∀ f u, children (exec (finish f None) u) errorText = []) ∧
  (∀ f e u, children (exec (finish f (Some e)) u) errorText
            = [NewText (UI.Errorf (failure f) e)]) ∧
  (∀ n r u,
     let u' := exec (UI.managerReplies n r) u in
     children u' errorText = children u errorText ∨
     (errorOf r = None ∧ children u' errorText = []) ∨
     (∃ prefix e, errorOf r = Some e ∧
                  children u' errorText = [NewText (UI.Errorf prefix e)])).
Proof.
  split; [|split; [|split; [|split]]].
  - by intros [|id []|key|id name] u.
  - apply DoClick_keeps_error.
  - by intros [] u.
  - by intros [] e u.
  - apply managerReplies_error.
Qed.

(** C6 fails as stated: an error on display is still there after an add
    flow has started, and after the user has cancelled it. *)
Lemma error_survives_new_flow :
  children addRefused errorText
    = [NewText "failed to add key: invalid name: name must not be empty"] ∧
  children (exec (start Add) addRefused) errorText ≠ [] ∧
  children (exec (UI.DoClick addCancel) (exec (start Add) addRefused)) errorText
    ≠ [].
Proof. vm_compute. repeat split; discriminate. Qed.

(** C7: [load] on a key that is not encrypted opens no dialog, registers
    no handler and calls [mgr.Load] at once with the empty passphrase;
    on an encrypted key it shows the passphrase dialog and calls nothing,
    and then [mgr.Load] is called with the passphrase in the input field
    when the user confirms, and not at all when the user cancels. *)
Theorem load_prompts_iff_encrypted id u :
  (let u' := exec (UI.load id false) u in
   open u' = open u ∧ listeners u' = listeners u ∧
   pending u' = pending u ++ [mgrLoad id ""] ∧
   history u' = history u
                ++ [PassphraseCallbackOp "" true; ManagerOp (mgrLoad id "")]) ∧
  (let u' := exec (UI.load id true) u in
   open u' passphraseDialog = true ∧ pending u' = pending u ∧
   listeners u' passphraseOk
     = listeners u passphraseOk ++ [passphraseOkClicked (loadCallback id)] ∧
   listeners u' passphraseCancel
     = listeners u passphraseCancel
       ++ [passphraseCancelClicked (loadCallback id)]) ∧
  (listeners u passphraseOk = [passphraseOkClicked (loadCallback id)] →
   pending (exec (UI.DoClick passphraseOk) u)
     = pending u ++ [mgrLoad id (value u passphraseInput)]) ∧
  (listeners u passphraseCancel = [passphraseCancelClicked (loadCallback id)] →
   pending (exec (UI.DoClick passphraseCancel) u) = pending u).
Proof.
  split; [|split; [done|split]].
  - cbv zeta. simpl. repeat split. by rewrite <- app_assoc.
  - intros Hl. rewrite exec_DoClick, Hl. reflexivity.
  - intros Hl. rewrite exec_DoClick, Hl. reflexivity.
Qed.

Lemma load_prompts_iff_encrypted_witness :
  pending (exec (UI.DoClick passphraseOk) passphraseTyped)
    = [mgrLoad "1" "secret"] ∧
  pending (exec (UI.DoClick passphraseCancel) passphraseTyped) = [].
Proof.
  destruct (load_prompts_iff_encrypted "1" passphraseTyped)
    as (_ & _ & Hok & Hcancel).
  split.
  - apply Hok. reflexivity.
  - apply Hcancel. reflexivity.
Defined.

(** C8: when the manager reports that an action failed, the error text
    becomes the one message "failed to ... key: " followed by the manager's
    error, and neither the key list nor the rows on display change: no
    query for a refresh goes out.  For a failed load in particular the
    message starts with "failed to load key: ". *)
Theorem failure_keeps_display f e u :
  (let u' := exec (finish f (Some e)) u in
   children u' errorText = [NewText (failure f +:+ ": " +:+ e)] ∧
   keys u' = keys u ∧
   children u' keysData = children u keysData ∧
   pending u' = pending u) ∧
  (∀ n id passphrase,
     pending u !! n = Some (mgrLoad id passphrase) →
     let u' := exec (UI.managerReplies n (replyError (Some e))) u in
     children u' errorText = [NewText ("failed to load key: " +:+ e)] ∧
     keys u' = keys u ∧
     children u' keysData = children u keysData ∧
     pending u' = delete n (pending u)).
Proof.
  split; [by destruct f|].
  intros n id passphrase Hn.
  unfold exec, UI.managerReplies, takePending. rewrite Hn.
  unfold mbind, M_bind. rewrite Hn. done.
Qed.

Lemma failure_keeps_display_witness :
  let u := exec (UI.DoClick passphraseOk) passphraseTyped in
  let u' := exec (UI.managerReplies 0 (replyError (Some "wrong"))) u in
  children u' errorText = [NewText "failed to load key: wrong"] ∧
  keys u' = keys u ∧ children u' keysData = children u keysData ∧
  pending u' = [].
Proof.
  destruct (failure_keeps_display (Load "1" true) "wrong"
              (exec (UI.DoClick passphraseOk) passphraseTyped)) as [_ H].
  apply (H 0 "1" "secret"). reflexivity.
Defined.

(** Run a click on a dialog button whose handler is known. *)
Ltac click_through opened h Hok Hcancel :=
  let Hl := fresh "Hl" in
  let u' := fresh "u'" in
  match goal with
  | |- context [exec (UI.DoClick ?o) opened] =>
      assert (listeners opened o = [h]) as Hl
        by (subst opened; simpl; unfold insert, fn_insert; simpl;
            rewrite ?Hok, ?Hcancel; reflexivity);
      intros u'; subst u'; rewrite exec_DoClick, Hl;
      subst opened; simpl; rewrite <- !app_assoc; simpl;
      repeat split
  end.

(** C9: each time the add dialog or the passphrase dialog is opened, the
    handler that fires when the user confirms or cancels first empties the
    input fields (name and private key, or passphrase), then deregisters
    both handlers and closes the dialog, and only then runs the callback;
    when the user cancels, the callback is handed empty strings and not
    what was typed. *)
Theorem dialogs_clear_inputs_first u :
  (∀ callback name privateKey,
     listeners u addOk = [] → listeners u addCancel = [] →
     let opened := typeInto addKey privateKey
                     (typeInto addName name (exec (UI.promptAdd callback) u)) in
     (let u' := exec (UI.DoClick addOk) opened in
      history u' = history opened ++
        [SetValueOp addName ""; SetValueOp addKey "";
         RemoveEventListenersOp addOk; RemoveEventListenersOp addCancel;
         CloseOp addDialog; AddCallbackOp name privateKey true;
         ManagerOp (mgrAdd name privateKey)] ∧
      value u' addName = "" ∧ value u' addKey = "" ∧
      open u' addDialog = false) ∧
     (let u' := exec (UI.DoClick addCancel) opened in
      history u' = history opened ++
        [SetValueOp addName ""; SetValueOp addKey "";
         RemoveEventListenersOp addOk; RemoveEventListenersOp addCancel;
         CloseOp addDialog; AddCallbackOp "" "" false] ∧
      value u' addName = "" ∧ value u' addKey = "" ∧
      open u' addDialog = false)) ∧
  (∀ id passphrase,
     listeners u passphraseOk = [] → listeners u passphraseCancel = [] →
     let opened := typeInto passphraseInput passphrase
                     (exec (UI.promptPassphrase (loadCallback id)) u) in
     (let u' := exec (UI.DoClick passphraseOk) opened in
      history u' = history opened ++
        [SetValueOp passphraseInput "";
         RemoveEventListenersOp passphraseOk;
         RemoveEventListenersOp passphraseCancel;
         CloseOp passphraseDialog; PassphraseCallbackOp passphrase true;
         ManagerOp (mgrLoad id passphrase)] ∧
      value u' passphraseInput = "" ∧ open u' passphraseDialog = false) ∧
     (let u' := exec (UI.DoClick passphraseCancel) opened in
      history u' = history opened ++
        [SetValueOp passphraseInput "";
         RemoveEventListenersOp passphraseOk;
         RemoveEventListenersOp passphraseCancel;
         CloseOp passphraseDialog; PassphraseCallbackOp "" false] ∧
      value u' passphraseInput = "" ∧ open u' passphraseDialog = false)).
Proof.
  split.
  - intros [] name privateKey Hok Hcancel opened. split.
    + click_through opened (addOkClicked addCallback) Hok Hcancel.
    + click_through opened (addCancelClicked addCallback) Hok Hcancel.
  - intros id passphrase Hok Hcancel opened. split.
    + click_through opened (passphraseOkClicked (loadCallback id)) Hok Hcancel.
    + click_through opened (passphraseCancelClicked (loadCallback id))
        Hok Hcancel.
Qed.

Lemma dialogs_clear_inputs_first_witness :
  let opened := typeInto addKey "private-key"
                  (typeInto addName "new-key"
                     (exec (UI.promptAdd addCallback) UI.New)) in
  let u' := exec (UI.DoClick addCancel) opened in
  history u' = history opened ++
    [SetValueOp addName ""; SetValueOp addKey "";
     RemoveEventListenersOp addOk; RemoveEventListenersOp addCancel;
     CloseOp addDialog; AddCallbackOp "" "" false] ∧
  value u' addName = "" ∧ value u' addKey = "" ∧ open u' addDialog = false.
Proof.
  destruct (dialogs_clear_inputs_first UI.New) as [Hadd _].
  apply (Hadd addCallback "new-key" "private-key"); reflexivity.
Defined.

(** * Further properties of the display list *)
Lemma elem_of_mergeKeys configured loaded d :
  d ∈ mergeKeys configured loaded ↔
  (∃ l, l ∈ loaded ∧ d = shownLoaded (buildConfiguredMap configured) l) ∨
  (∃ a, a ∈ configured ∧ ¬ matched loaded a ∧ d = shownConfigured a).
Proof.
  rewrite mergeKeys_perm, collectKeys_shown, elem_of_app, !list_elem_of_fmap.
  setoid_rewrite list_elem_of_filter. naive_solver.
Qed.

Lemma shownLoaded_matched configured l c :
  NoDup (ck_ID <$> configured) → c ∈ configured → derives l (ck_ID c) →
  shownLoaded (buildConfiguredMap configured) l
  = {| dk_ID := ck_ID c; dk_Loaded := true; dk_Encrypted := false;
       dk_Name := ck_Name c; dk_Type := lk_Type l;
       dk_Blob := base64.EncodeToString (lk_Blob l) |}.
Proof.
  intros Hnd Hc [Hv Hid]. unfold shownLoaded.
  rewrite Hid, (configuredMap_lookup configured c Hnd Hc).
  rewrite <- Hid. by rewrite decide_False by done.
Qed.

Lemma configured_id_shown configured loaded c :
  c ∈ configured → ck_ID c ∈ dk_ID <$> mergeKeys configured loaded.
Proof.
  intros Hc. apply list_elem_of_fmap.
  destruct (decide (matched loaded c)) as [Hm|Hm].
  - apply Exists_exists in Hm as (l & Hl & Hv & Hid).
    exists (shownLoaded (buildConfiguredMap configured) l). split.
    + unfold shownLoaded.
      assert (is_Some (buildConfiguredMap configured !! lk_ID l)) as [ak ->].
      { apply configuredMap_is_Some. rewrite Hid.
        by apply list_elem_of_fmap_2. }
      by rewrite decide_False by done.
    + apply elem_of_mergeKeys. left. eauto.
  - exists (shownConfigured c). split; [done|].
    apply elem_of_mergeKeys. right. eauto.
Qed.

Lemma configured_key_shown configured loaded c :
  NoDup (ck_ID <$> configured) → c ∈ configured →
  ∃ d, d ∈ mergeKeys configured loaded ∧
       dk_ID d = ck_ID c ∧ dk_Name d = ck_Name c ∧
       (dk_Loaded d = true ↔ matched loaded c).
Proof.
  intros Hnd Hc. destruct (decide (matched loaded c)) as [Hm|Hm].
  - pose proof Hm as Hm'.
    apply Exists_exists in Hm' as (l & Hl & Hd).
    exists (shownLoaded (buildConfiguredMap configured) l).
    rewrite (shownLoaded_matched configured l c Hnd Hc Hd). simpl.
    split; [|done].
    rewrite <- (shownLoaded_matched configured l c Hnd Hc Hd).
    apply elem_of_mergeKeys. left. eauto.
  - exists (shownConfigured c). simpl. split; [|naive_solver].
    apply elem_of_mergeKeys. right. eauto.
Qed.

(** X1: no configured key is left out: the id of every configured key is
    the id of some entry of the list [mergeKeys] returns; when no id is
    configured twice, that entry also has the name of the key, and it is
    loaded exactly when some loaded key carries the id. *)
Theorem mergeKeys_shows_every_configured configured loaded c :
  c ∈ configured →
  ck_ID c ∈ dk_ID <$> mergeKeys configured loaded ∧
  (NoDup (ck_ID <$> configured) →
   ∃ d, d ∈ mergeKeys configured loaded ∧
        dk_ID d = ck_ID c ∧ dk_Name d = ck_Name c ∧
        (dk_Loaded d = true ↔ matched loaded c)).
Proof.
  intros Hc. split; [by apply configured_id_shown|].
  intros Hnd. by apply configured_key_shown.
Qed.

Lemma mergeKeys_shows_every_configured_witness :
  ck_ID bob ∈ dk_ID <$> mergeKeys [alice; bob] [aliceLoaded].
Proof.
  apply (mergeKeys_shows_every_configured [alice; bob] [aliceLoaded] bob).
  apply list_elem_of_In. simpl. auto.
Defined.

(** X2: nothing in the list [mergeKeys] returns is made up.  An entry marked
    loaded has the type and the base64 text of the blob of some loaded key,
    and either has the invalid id and no name, or has the valid id of that
    loaded key and the name of a configured key with that id.  An entry not
    marked loaded has no type and no blob, and has the id, the name and the
    encrypted flag of a configured key whose id no loaded key carries. *)
Theorem mergeKeys_entry_origin configured loaded d :
  d ∈ mergeKeys configured loaded →
  (dk_Loaded d = true ∧
   ∃ l, l ∈ loaded ∧ dk_Type d = lk_Type l ∧
        dk_Blob d = base64.EncodeToString (lk_Blob l) ∧
        ((dk_ID d = InvalidID ∧ dk_Name d = "") ∨
         (dk_ID d = lk_ID l ∧ dk_ID d ≠ InvalidID ∧
          ∃ c, c ∈ configured ∧ ck_ID c = dk_ID d ∧ ck_Name c = dk_Name d))) ∨
  (dk_Loaded d = false ∧ dk_Type d = "" ∧ dk_Blob d = "" ∧
   ∃ a, a ∈ configured ∧ ¬ matched loaded a ∧
        dk_ID d = ck_ID a ∧ dk_Name d = ck_Name a ∧
        dk_Encrypted d = ck_Encrypted a).
Proof.
  intros [(l & Hl & ->)|(a & Ha & Hm & ->)]%elem_of_mergeKeys.
  - left. unfold shownLoaded, unconfigured.
    destruct (buildConfiguredMap configured !! lk_ID l) as [ak|] eqn:E;
      [destruct (decide (lk_ID l = InvalidID))|]; simpl;
      (split; [done|]); exists l; repeat split; auto.
    right. repeat split; auto.
    apply configuredMap_elem in E as [? ?]. eauto.
  - right. simpl. repeat split. eauto 10.
Qed.

Lemma mergeKeys_entry_origin_witness :
  ∃ a, a ∈ [alice; bob] ∧ ¬ matched [aliceLoaded] a ∧
       dk_ID (shownConfigured bob) = ck_ID a ∧
       dk_Name (shownConfigured bob) = ck_Name a ∧
       dk_Encrypted (shownConfigured bob) = ck_Encrypted a.
Proof.
  destruct (mergeKeys_entry_origin [alice; bob] [aliceLoaded]
              (shownConfigured bob)) as [[H _]|(_ & _ & _ & H)].
  - apply list_elem_of_In. vm_compute. auto.
  - discriminate H.
  - exact H.
Defined.

Lemma filter_fmap_sublist {A : Type} (f g : A → ID) (l : list A) :
  (∀ x, f x = InvalidID ∨ f x = g x) →
  filter (λ id, id ≠ InvalidID) (f <$> l)
    `sublist_of` filter (λ id, id ≠ InvalidID) (g <$> l).
Proof.
  intros Hfg. induction l as [|x l IH]; [done|].
  rewrite !fmap_cons, !filter_cons.
  destruct (Hfg x) as [E|E]; rewrite E.
  - rewrite decide_False by (intros Hne; by apply Hne).
    destruct (decide (g x ≠ InvalidID)); [by apply sublist_cons|done].
  - destruct (decide (g x ≠ InvalidID)); [by apply sublist_skip|done].
Qed.

Lemma shownLoaded_ID configuredMap l :
  dk_ID (shownLoaded configuredMap l) = InvalidID ∨
  dk_ID (shownLoaded configuredMap l) = lk_ID l.
Proof. unfold shownLoaded, unconfigured. repeat case_match; auto. Qed.

Lemma shownLoaded_valid configuredMap l :
  dk_ID (shownLoaded configuredMap l) ≠ InvalidID →
  dk_ID (shownLoaded configuredMap l) = lk_ID l ∧ lk_ID l ≠ InvalidID.
Proof.
  intros Hv. destruct (shownLoaded_ID configuredMap l) as [E|E]; [done|].
  split; [done|]. by rewrite <- E.
Qed.

Lemma valid_ids_NoDup configured loaded :
  NoDup (ck_ID <$> configured) →
  NoDup (filter (λ id, id ≠ InvalidID) (lk_ID <$> loaded)) →
  NoDup (filter (λ id, id ≠ InvalidID)
           (dk_ID <$> mergeKeys configured loaded)).
Proof.
  intros Hc Hl.
  rewrite mergeKeys_perm, collectKeys_shown, fmap_app, filter_app.
  rewrite <- !list_fmap_compose.
  apply NoDup_app. split; [|split].
  - eapply sublist_NoDup; [exact Hl|].
    apply filter_fmap_sublist. intros l. apply shownLoaded_ID.
  - intros id [Hv (l & -> & Hin)%list_elem_of_fmap]%list_elem_of_filter.
    intros [_ (a & Ha & [Hm _]%list_elem_of_filter)%list_elem_of_fmap]
      %list_elem_of_filter.
    simpl in *. apply shownLoaded_valid in Hv as [E Hv].
    apply Hm. apply Exists_exists. exists l. split; [done|].
    split; [done|]. by rewrite <- E, Ha.
  - eapply sublist_NoDup; [exact Hc|].
    etrans; [apply sublist_filter|].
    apply fmap_sublist, sublist_filter.
Qed.

(** X3: when no id is configured twice and no valid id is carried by two
    loaded keys, no valid id is on display twice. *)
Theorem mergeKeys_valid_ids_unique configured loaded :
  NoDup (ck_ID <$> configured) →
  NoDup (filter (λ id, id ≠ InvalidID) (lk_ID <$> loaded)) →
  NoDup (filter (λ id, id ≠ InvalidID)
           (dk_ID <$> mergeKeys configured loaded)).
Proof. apply valid_ids_NoDup. Qed.

Lemma mergeKeys_valid_ids_unique_witness :
  NoDup (filter (λ id, id ≠ InvalidID)
           (dk_ID <$> mergeKeys [alice; bob] [stranger; aliceLoaded])).
Proof.
  apply mergeKeys_valid_ids_unique.
  - apply NoDup_ListNoDup. vm_compute.
    repeat constructor; simpl; intuition discriminate.
  - apply NoDup_ListNoDup. vm_compute.
    repeat constructor; simpl; intuition discriminate.
Defined.

Lemma filter_all {A : Type} (P : A → Prop) `{!∀ x, Decision (P x)}
    (l : list A) :
  (∀ x, P x) → filter P l = l.
Proof.
  intros HP. induction l as [|x l IH]; [done|].
  by rewrite filter_cons_True, IH.
Qed.

(** X4: with no loaded key, [mergeKeys] returns the configured keys, each
    shown as not loaded; with no configured key, it returns the loaded keys,
    each shown with the invalid id and no name.  Both up to the order of the
    list. *)
Theorem mergeKeys_one_side_empty configured loaded :
  mergeKeys configured [] ≡ₚ shownConfigured <$> configured ∧
  mergeKeys [] loaded ≡ₚ unconfigured <$> loaded.
Proof.
  split.
  - rewrite mergeKeys_perm, collectKeys_shown. simpl.
    rewrite filter_all; [reflexivity|].
    intros a Hm. by apply Exists_nil in Hm.
  - rewrite mergeKeys_perm, collectKeys_shown, filter_nil, app_nil_r.
    induction loaded as [|l loaded IH]; [done|].
    rewrite !fmap_cons, IH.
    rewrite (shownLoaded_unconfigured [] l); [done|].
    right. apply not_elem_of_nil.
Qed.

(** X5: when an id is configured more than once, the last configured key
    with that id names the loaded key: for a loaded key carrying the valid
    id of a configured key that no later configured key shares, the list
    holds the loaded entry with that configured key's name. *)
Theorem mergeKeys_last_configured_wins before c after loaded l :
  ck_ID c ∉ ck_ID <$> after →
  l ∈ loaded → lk_ID l = ck_ID c → ck_ID c ≠ InvalidID →
  {| dk_ID := ck_ID c; dk_Loaded := true; dk_Encrypted := false;
     dk_Name := ck_Name c; dk_Type := lk_Type l;
     dk_Blob := base64.EncodeToString (lk_Blob l) |}
    ∈ mergeKeys (before ++ c :: after) loaded.
Proof.
  intros Hafter Hl Hid Hv. apply elem_of_mergeKeys. left.
  exists l. split; [done|]. unfold shownLoaded.
  assert (buildConfiguredMap (before ++ c :: after) !! lk_ID l = Some c) as ->.
  { rewrite Hid. unfold buildConfiguredMap. rewrite fold_left_app. simpl.
    destruct (fold_left put after (put (fold_left put before ∅) c) !! ck_ID c)
      as [k|] eqn:E.
    - apply fold_put_elem in E as [[Hk Hkid]|E].
      + exfalso. apply Hafter. rewrite <- Hkid. by apply list_elem_of_fmap_2.
      + unfold put in E. by rewrite lookup_insert_eq in E.
    - exfalso. apply eq_None_not_Some in E. apply E.
      apply fold_put_is_Some. right. unfold put. by rewrite lookup_insert_eq. }
  rewrite decide_False by congruence. by rewrite Hid.
Qed.

Lemma mergeKeys_last_configured_wins_witness :
  {| dk_ID := "1"; dk_Loaded := true; dk_Encrypted := false;
     dk_Name := "alice, renamed"; dk_Type := "ssh-rsa";
     dk_Blob := base64.EncodeToString (bytes "alice-key") |}
    ∈ mergeKeys
        ([alice]
         ++ {| ck_ID := "1"; ck_Name := "alice, renamed";
               ck_Encrypted := true |} :: [bob])
        [aliceLoaded].
Proof.
  apply (mergeKeys_last_configured_wins [alice]
           {| ck_ID := "1"; ck_Name := "alice, renamed";
              ck_Encrypted := true |} [bob] [aliceLoaded] aliceLoaded).
  - intros Hin. apply list_elem_of_In in Hin. simpl in Hin.
    destruct Hin as [Hin|[]]. discriminate Hin.
  - apply list_elem_of_In. simpl. auto.
  - reflexivity.
  - discriminate.
Defined.

(** * Base64 *)

Section bits.
Local Open Scope N_scope.

Lemma testbit_shiftl a k n :
  N.testbit (N.shiftl a k) n = if decide (k ≤ n) then N.testbit a (n - k) else false.
Proof.
  case_decide.
  - by apply N.shiftl_spec_high'.
  - apply N.shiftl_spec_low. lia.
Qed.

Lemma testbit_ones k n : N.testbit (N.ones k) n = bool_decide (n < k).
Proof.
  case_bool_decide.
  - by apply N.ones_spec_low.
  - apply N.ones_spec_high. lia.
Qed.

Lemma testbit_byte b n : 8 ≤ n → N.testbit (Byte.to_N b) n = false.
Proof.
  intros Hn. pose proof (Byte.to_N_bounded b) as Hb.
  rewrite <- (N.mod_small (Byte.to_N b) (2 ^ 8)) by (simpl; lia).
  by apply N.mod_pow2_bits_high.
Qed.

Lemma toByte_to_N b : base64_decode.toByte (Byte.to_N b) = b.
Proof.
  unfold base64_decode.toByte. pose proof (Byte.to_N_bounded b).
  rewrite N.mod_small by lia. by rewrite Byte.of_to_N.
Qed.

(** The low eight bits of [x] are those of the byte [b]. *)
Lemma toByte_bits x b :
  (∀ n, n < 8 → N.testbit x n = N.testbit (Byte.to_N b) n) →
  base64_decode.toByte x = b.
Proof.
  intros H. rewrite <- (toByte_to_N b). unfold base64_decode.toByte.
  do 2 f_equal. change 256 with (2 ^ 8).
  apply N.bits_inj. intros n.
  destruct (decide (n < 8)).
  - rewrite !N.mod_pow2_bits_low by done. by apply H.
  - by rewrite !N.mod_pow2_bits_high by lia.
Qed.

Lemma testbit_pack a b c n :
  N.testbit (pack a b c) n
  = if decide (n < 8) then N.testbit (Byte.to_N c) n
    else if decide (n < 16) then N.testbit (Byte.to_N b) (n - 8)
    else if decide (n < 24) then N.testbit (Byte.to_N a) (n - 16)
    else false.
Proof.
  unfold pack. rewrite !N.lor_spec, !testbit_shiftl.
  repeat case_decide; try lia;
    rewrite ?(testbit_byte a), ?(testbit_byte b), ?(testbit_byte c) by lia;
    by rewrite ?orb_false_r.
Qed.

(** Cutting 24 bits into four sextets and putting them together again. *)
Lemma testbit_sextets val n :
  (∀ m, 24 ≤ m → N.testbit val m = false) →
  N.testbit
    (N.lor (N.lor (N.lor (N.shiftl (N.land (N.shiftr val 18) 63) 18)
                         (N.shiftl (N.land (N.shiftr val 12) 63) 12))
                  (N.shiftl (N.land (N.shiftr val 6) 63) 6))
           (N.land (N.shiftr val 0) 63)) n
  = N.testbit val n.
Proof.
  intros Hhigh. change 63 with (N.ones 6).
  rewrite !N.lor_spec, !testbit_shiftl, !N.land_spec, !N.shiftr_spec',
    !testbit_ones.
  repeat case_decide; repeat case_bool_decide; try lia;
    rewrite ?andb_true_r, ?andb_false_r, ?orb_false_r, ?orb_false_l;
    try (f_equal; lia).
  symmetry. apply Hhigh. lia.
Qed.
End bits.

Section roundtrip.
Local Open Scope N_scope.
Import base64 base64_decode.

Lemma six_lt val shift : six val shift < 64.
Proof.
  unfold six. change 63 with (N.ones 6). rewrite N.land_ones.
  apply N.mod_lt. done.
Qed.

Lemma decodeMap_encode i : i < 64 → decodeMap (encode i) = Some i.
Proof.
  intros H. destruct i as [|p]; [done|].
  do 6 (destruct p as [p|p|]; try reflexivity); lia.
Qed.

Lemma decodeMap_sextet val shift :
  decodeMap (sextet val shift) = Some (six val shift).
Proof. apply decodeMap_encode, six_lt. Qed.

Lemma pack_high a b c m : 24 ≤ m → N.testbit (pack a b c) m = false.
Proof.
  intros Hm. rewrite testbit_pack. by repeat case_decide; try lia.
Qed.

Lemma convert_pack a b c :
  convert 4 [six (pack a b c) 18; six (pack a b c) 12;
             six (pack a b c) 6; six (pack a b c) 0]
  = [a; b; c].
Proof.
  unfold convert, six. simpl nth. simpl take.
  repeat f_equal; apply toByte_bits; intros n Hn;
    rewrite ?N.shiftr_spec', (testbit_sextets _ _ (pack_high a b c)),
      testbit_pack;
    repeat case_decide; try lia; f_equal; lia.
Qed.

Lemma six_low_zero a b : six (pack a b Byte.x00) 0 = 0.
Proof.
  unfold six. apply N.bits_inj. intros n.
  change 63 with (N.ones 6).
  rewrite N.land_spec, N.shiftr_spec', testbit_ones, testbit_pack, N.bits_0.
  case_bool_decide; [|by rewrite andb_false_r].
  rewrite decide_True by lia. by rewrite N.bits_0.
Qed.

Lemma six_mid_zero a : six (pack a Byte.x00 Byte.x00) 6 = 0.
Proof.
  unfold six. apply N.bits_inj. intros n.
  change 63 with (N.ones 6).
  rewrite N.land_spec, N.shiftr_spec', testbit_ones, testbit_pack, N.bits_0.
  case_bool_decide; [|by rewrite andb_false_r].
  repeat case_decide; try lia; by rewrite N.bits_0.
Qed.

Lemma convert_pack_3 a b :
  convert 3 [six (pack a b Byte.x00) 18; six (pack a b Byte.x00) 12;
             six (pack a b Byte.x00) 6]
  = [a; b].
Proof.
  pose proof (convert_pack a b Byte.x00) as H.
  unfold convert in *. simpl nth in *. simpl take in *.
  rewrite six_low_zero in H. by injection H as -> ->.
Qed.

Lemma convert_pack_2 a :
  convert 2 [six (pack a Byte.x00 Byte.x00) 18;
             six (pack a Byte.x00 Byte.x00) 12]
  = [a].
Proof.
  pose proof (convert_pack a Byte.x00 Byte.x00) as H.
  unfold convert in *. simpl nth in *. simpl take in *.
  rewrite six_low_zero, six_mid_zero in H. by injection H as ->.
Qed.

Lemma pack_two a b :
  N.lor (N.shiftl (Byte.to_N a) 16) (N.shiftl (Byte.to_N b) 8)
  = pack a b Byte.x00.
Proof. unfold pack. by rewrite N.lor_0_r. Qed.

Lemma pack_one a : N.shiftl (Byte.to_N a) 16 = pack a Byte.x00 Byte.x00.
Proof. unfold pack. simpl (Byte.to_N Byte.x00). by rewrite N.shiftl_0_l, !N.lor_0_r. Qed.

Lemma decode_valid srclen c d rest si j dbuf out :
  decodeMap c = Some d → j ≠ 3%nat →
  decode srclen (c :: rest) si j dbuf out
  = decode srclen rest (S si) (S j) (dbuf ++ [d]) out.
Proof. intros Hc Hj. simpl. rewrite Hc. by rewrite decide_False. Qed.

Lemma decode_valid_last srclen c d rest si dbuf out :
  decodeMap c = Some d →
  decode srclen (c :: rest) si 3 dbuf out
  = decode srclen rest (S si) 0 [] (out ++ convert 4 (dbuf ++ [d])).
Proof. intros Hc. simpl. by rewrite Hc. Qed.

Lemma decode_encode_3 srclen bs :
  (∀ si out,
     decode srclen (String.list_ascii_of_string (EncodeToString bs)) si 0 [] out
     = (out ++ bs, None)) ∧
  (∀ a si out,
     decode srclen (String.list_ascii_of_string (EncodeToString (a :: bs)))
       si 0 [] out
     = (out ++ a :: bs, None)) ∧
  (∀ a b si out,
     decode srclen (String.list_ascii_of_string (EncodeToString (a :: b :: bs)))
       si 0 [] out
     = (out ++ a :: b :: bs, None)).
Proof.
  induction bs as [|c bs (IH0 & IH1 & IH2)].
  - split; [|split].
    + intros si out. by rewrite app_nil_r.
    + intros a si out. cbn [EncodeToString String.list_ascii_of_string].
      rewrite pack_one.
      rewrite (decode_valid _ _ _ _ _ _ _ _ (decodeMap_sextet _ 18)) by done.
      rewrite (decode_valid _ _ _ _ _ _ _ _ (decodeMap_sextet _ 12)) by done.
      simpl. by rewrite convert_pack_2.
    + intros a b si out. cbn [EncodeToString String.list_ascii_of_string].
      rewrite pack_two.
      rewrite (decode_valid _ _ _ _ _ _ _ _ (decodeMap_sextet _ 18)) by done.
      rewrite (decode_valid _ _ _ _ _ _ _ _ (decodeMap_sextet _ 12)) by done.
      rewrite (decode_valid _ _ _ _ _ _ _ _ (decodeMap_sextet _ 6)) by done.
      simpl. by rewrite convert_pack_3.
  - split; [done|]. split; [done|].
    intros a b si out. cbn [EncodeToString String.list_ascii_of_string].
    fold (pack a b c).
    rewrite (decode_valid _ _ _ _ _ _ _ _ (decodeMap_sextet _ 18)) by done.
    rewrite (decode_valid _ _ _ _ _ _ _ _ (decodeMap_sextet _ 12)) by done.
    rewrite (decode_valid _ _ _ _ _ _ _ _ (decodeMap_sextet _ 6)) by done.
    rewrite (decode_valid_last _ _ _ _ _ _ _ (decodeMap_sextet _ 0)).
    simpl app. rewrite convert_pack, IH0. by rewrite <- app_assoc.
Qed.
End roundtrip.

Lemma DecodeString_encoded bs :
  base64_decode.DecodeString (base64.EncodeToString bs) = (bs, None).
Proof.
  unfold base64_decode.DecodeString.
  by rewrite (proj1 (decode_encode_3 _ bs)).
Qed.

Lemma EncodeToString_injective bs1 bs2 :
  base64.EncodeToString bs1 = base64.EncodeToString bs2 → bs1 = bs2.
Proof.
  intros H. pose proof (DecodeString_encoded bs1) as H1.
  rewrite H, DecodeString_encoded in H1. congruence.
Qed.

(** The encoded text has four characters for every three bytes, the last
    group padded. *)
Lemma EncodeToString_length_3 bs :
  String.length (base64.EncodeToString bs) = 4 * ((length bs + 2) / 3) ∧
  (∀ a, String.length (base64.EncodeToString (a :: bs))
        = 4 * ((length (a :: bs) + 2) / 3)) ∧
  (∀ a b, String.length (base64.EncodeToString (a :: b :: bs))
          = 4 * ((length (a :: b :: bs) + 2) / 3)).
Proof.
  induction bs as [|c bs (IH0 & IH1 & IH2)].
  - repeat split; intros; reflexivity.
  - split; [exact (IH1 c)|]. split; [exact (λ a, IH2 a c)|].
    intros a b. cbn [base64.EncodeToString String.length length].
    rewrite IH0.
    replace (S (S (S (length bs))) + 2) with (length bs + 2 + 1 * 3) by lia.
    rewrite Nat.div_add by done. lia.
Qed.

(** X6: [DecodeString] undoes [EncodeToString]: decoding the text
    [EncodeToString] produced for some bytes returns those bytes and no
    error.  That text has four characters for every group of up to three
    bytes. *)
Theorem DecodeString_EncodeToString bs :
  base64_decode.DecodeString (base64.EncodeToString bs) = (bs, None) ∧
  String.length (base64.EncodeToString bs) = 4 * ((length bs + 2) / 3).
Proof. split; [apply DecodeString_encoded|apply EncodeToString_length_3]. Qed.

(** X7: [EncodeToString] is one-to-one: byte sequences with the same
    encoded text are the same. *)
Theorem EncodeToString_inj bs1 bs2 :
  base64.EncodeToString bs1 = base64.EncodeToString bs2 → bs1 = bs2.
Proof. apply EncodeToString_injective. Qed.

Lemma EncodeToString_inj_witness :
  bytes "alice-key" = lk_Blob aliceLoaded.
Proof. apply (EncodeToString_inj _ _). reflexivity. Defined.

Lemma shownLoaded_fields configuredMap l :
  dk_Loaded (shownLoaded configuredMap l) = true ∧
  dk_Encrypted (shownLoaded configuredMap l) = false ∧
  dk_Type (shownLoaded configuredMap l) = lk_Type l ∧
  dk_Blob (shownLoaded configuredMap l) = base64.EncodeToString (lk_Blob l).
Proof. unfold shownLoaded, unconfigured. by repeat case_match. Qed.

Lemma displayedKey_eq (d1 d2 : displayedKey) :
  dk_ID d1 = dk_ID d2 → dk_Loaded d1 = dk_Loaded d2 →
  dk_Encrypted d1 = dk_Encrypted d2 → dk_Name d1 = dk_Name d2 →
  dk_Type d1 = dk_Type d2 → dk_Blob d1 = dk_Blob d2 → d1 = d2.
Proof. destruct d1, d2. simpl. congruence. Qed.

Lemma LoadedKey_shownLoaded configuredMap l :
  ∃ k, displayedKey_LoadedKey (shownLoaded configuredMap l) = inl k ∧
       lk_Type k = lk_Type l ∧ lk_Blob k = lk_Blob l.
Proof.
  unfold displayedKey_LoadedKey.
  destruct (shownLoaded_fields configuredMap l) as (_ & _ & -> & ->).
  rewrite DecodeString_encoded. eauto.
Qed.

(** X8: [LoadedKey] never fails on an entry of the list [mergeKeys]
    returns.  For an entry marked loaded it gives back the type and the
    blob, byte for byte, of a loaded key [mergeKeys] was given; for an entry
    not marked loaded it gives an empty type and an empty blob. *)
Theorem LoadedKey_of_displayed configured loaded d :
  d ∈ mergeKeys configured loaded →
  ∃ k, displayedKey_LoadedKey d = inl k ∧
       if dk_Loaded d
       then ∃ l, l ∈ loaded ∧ lk_Type k = lk_Type l ∧ lk_Blob k = lk_Blob l
       else lk_Type k = "" ∧ lk_Blob k = [].
Proof.
  intros [(l & Hl & ->)|(a & Ha & Hm & ->)]%elem_of_mergeKeys.
  - destruct (LoadedKey_shownLoaded (buildConfiguredMap configured) l)
      as (k & Hk & Ht & Hb).
    exists k. split; [done|].
    destruct (shownLoaded_fields (buildConfiguredMap configured) l) as [-> _].
    eauto.
  - eexists. split; [reflexivity|]. done.
Qed.

Lemma LoadedKey_of_displayed_witness :
  ∃ k, displayedKey_LoadedKey (unconfigured stranger) = inl k ∧
       ∃ l, l ∈ [stranger; aliceLoaded] ∧
            lk_Type k = lk_Type l ∧ lk_Blob k = lk_Blob l.
Proof.
  apply (LoadedKey_of_displayed [alice] [stranger; aliceLoaded]
           (unconfigured stranger)).
  apply list_elem_of_In. vm_compute. auto.
Defined.

(** Entries with the same name, blob and id are the same entry, when the
    inputs are well formed. *)
Lemma mergeKeys_keyDetermined configured loaded :
  NoDup (ck_ID <$> configured) →
  InvalidID ∉ ck_ID <$> configured →
  (∀ l1 l2, l1 ∈ loaded → l2 ∈ loaded →
            lk_Blob l1 = lk_Blob l2 → lk_Type l1 = lk_Type l2) →
  keyDetermined (mergeKeys configured loaded).
Proof.
  intros Hnd Hinv Htype d1 d2 Hd1 Hd2 [= Hname Hblob Hid].
  apply elem_of_mergeKeys in Hd1 as [(l1 & Hl1 & ->)|(a1 & Ha1 & Hm1 & ->)];
  apply elem_of_mergeKeys in Hd2 as [(l2 & Hl2 & ->)|(a2 & Ha2 & Hm2 & ->)].
  - destruct (shownLoaded_fields (buildConfiguredMap configured) l1)
      as (Hl1' & He1 & Ht1 & Hb1).
    destruct (shownLoaded_fields (buildConfiguredMap configured) l2)
      as (Hl2' & He2 & Ht2 & Hb2).
    apply displayedKey_eq; try congruence.
    rewrite Ht1, Ht2. apply Htype; [done..|].
    apply EncodeToString_injective. congruence.
  - exfalso. simpl in *.
    destruct (shownLoaded_ID (buildConfiguredMap configured) l1) as [E|E].
    + apply Hinv. rewrite <- E, Hid. by apply list_elem_of_fmap_2.
    + apply Hm2. apply Exists_exists. exists l1. split; [done|].
      split; [|congruence]. rewrite <- E, Hid. intros Hbad. apply Hinv.
      rewrite <- Hbad. by apply list_elem_of_fmap_2.
  - exfalso. simpl in *.
    destruct (shownLoaded_ID (buildConfiguredMap configured) l2) as [E|E].
    + apply Hinv. rewrite <- E, <- Hid. by apply list_elem_of_fmap_2.
    + apply Hm1. apply Exists_exists. exists l2. split; [done|].
      split; [|congruence]. rewrite <- E, <- Hid. intros Hbad. apply Hinv.
      rewrite <- Hbad. by apply list_elem_of_fmap_2.
  - simpl in *. f_equal.
    pose proof (configuredMap_lookup configured a1 Hnd Ha1) as H1.
    pose proof (configuredMap_lookup configured a2 Hnd Ha2) as H2.
    rewrite Hid in H1. congruence.
Qed.

(** X9: [mergeKeys] does not depend on the order of its inputs when no id
    is configured twice, no configured key has the invalid id, and loaded
    keys with the same blob have the same type: reordering the configured
    keys and the loaded keys then gives the same list. *)
Theorem mergeKeys_order_independent_inputs
    configured configured' loaded loaded' :
  NoDup (ck_ID <$> configured) →
  InvalidID ∉ ck_ID <$> configured →
  (∀ l1 l2, l1 ∈ loaded → l2 ∈ loaded →
            lk_Blob l1 = lk_Blob l2 → lk_Type l1 = lk_Type l2) →
  configured ≡ₚ configured' → loaded ≡ₚ loaded' →
  mergeKeys configured' loaded' = mergeKeys configured loaded.
Proof.
  intros Hnd Hinv Htype Hc Hl.
  pose proof (mergeKeys_keyDetermined configured loaded Hnd Hinv Htype) as Hkd.
  assert (mergeKeys configured' loaded' ≡ₚ mergeKeys configured loaded) as Hp.
  { rewrite !mergeKeys_perm. by apply collectKeys_perm. }
  apply (StronglySorted_unique_strong ascending);
    [|apply mergeKeys_sorted_ascending..|done].
  intros a b Ha Hb Hab Hba. rewrite Hp in Ha.
  apply Hkd; [done..|].
  destruct Hab as [Hab|Hab]; [|done].
  by apply precedes_not_ascending in Hab.
Qed.

Lemma mergeKeys_order_independent_inputs_witness :
  mergeKeys [alice; bob] [aliceLoaded; stranger]
  = mergeKeys [bob; alice] [stranger; aliceLoaded].
Proof.
  apply mergeKeys_order_independent_inputs.
  - apply NoDup_ListNoDup. vm_compute.
    repeat constructor; simpl; intuition discriminate.
  - rewrite list_elem_of_In. vm_compute. intuition discriminate.
  - intros l1 l2 H1 H2. apply list_elem_of_In in H1, H2. simpl in H1, H2.
    destruct H1 as [<-|[<-|[]]]; destruct H2 as [<-|[<-|[]]];
      try reflexivity; intros H; vm_compute in H; discriminate H.
  - apply Permutation_swap.
  - apply Permutation_swap.
Defined.

(** * The page as a state machine *)

Lemma fire_keeps_display h u :
  keys (exec (UI.fire h) u) = keys u ∧
  children (exec (UI.fire h) u) keysData = children u keysData.
Proof. by destruct h as [|[]|[]|[]|[]|[]|[]]. Qed.

Lemma DoClick_keeps_display o u :
  keys (exec (UI.DoClick o) u) = keys u ∧
  children (exec (UI.DoClick o) u) keysData = children u keysData.
Proof.
  rewrite exec_DoClick. generalize (listeners u o). intros hs. revert u.
  induction hs as [|h hs IH]; intros u; [done|].
  rewrite exec_forEach_cons.
  destruct (IH (exec (UI.fire h) u)) as [-> ->]. apply fire_keeps_display.
Qed.

Lemma clickButton_keeps_display kind k u :
  keys (exec (clickButton kind k) u) = keys u ∧
  children (exec (clickButton kind k) u) keysData = children u keysData.
Proof.
  unfold clickButton. case_decide; [|done].
  destruct kind; unfold loadClicked, unloadClicked, removeClicked;
    [by destruct (dk_Encrypted k)| |done].
  by destruct (displayedKey_LoadedKey k).
Qed.

Lemma clickButton_error kind k u :
  children (exec (clickButton kind k) u) errorText = children u errorText ∨
  ∃ e, children (exec (clickButton kind k) u) errorText = [NewText e].
Proof.
  unfold clickButton. case_decide; [|by left].
  destruct kind; unfold loadClicked, unloadClicked, removeClicked;
    [left; by destruct (dk_Encrypted k)| |by left].
  destruct (displayedKey_LoadedKey k); [by left|right; by eexists].
Qed.

(** What [updateDisplayedKeys] leaves in the table. *)
Lemma forEach_rows ks u :
  children
    (exec (forEach ks (λ k, DOM.AppendChild keysData (NewRow (UI.keyRow k)))) u)
    keysData
  = children u keysData ++ rows ks ∧
  keys
    (exec (forEach ks (λ k, DOM.AppendChild keysData (NewRow (UI.keyRow k)))) u)
  = keys u.
Proof.
  revert u. induction ks as [|k ks IH]; intros u.
  - split; [|done]. simpl. by rewrite app_nil_r.
  - rewrite exec_forEach_cons.
    destruct (IH (exec (DOM.AppendChild keysData (NewRow (UI.keyRow k))) u))
      as [-> ->].
    split; [|done]. simpl. unfold insert, fn_insert. simpl.
    by rewrite <- app_assoc.
Qed.

Lemma updateDisplayedKeys_rows u :
  children (exec UI.updateDisplayedKeys u) keysData = rows (keys u) ∧
  keys (exec UI.updateDisplayedKeys u) = keys u.
Proof.
  unfold UI.updateDisplayedKeys.
  rewrite exec_then, exec_getKeys.
  destruct (forEach_rows (keys (exec (DOM.RemoveChildren keysData) u))
              (exec (DOM.RemoveChildren keysData) u)) as [-> ->].
  done.
Qed.

Lemma loadedDone_display configured loaded u :
  keys (exec (UI.loadedDone configured loaded None) u)
  = mergeKeys configured loaded ∧
  children (exec (UI.loadedDone configured loaded None) u) keysData
  = rows (mergeKeys configured loaded).
Proof.
  unfold UI.loadedDone. rewrite !exec_then.
  destruct (updateDisplayedKeys_rows
              (exec (setKeys (mergeKeys configured loaded))
                 (exec (UI.setError None) u))) as [-> ->].
  done.
Qed.

(** An answer of the manager leaves the key list and the table alone, or
    puts a merged list in both. *)
Lemma managerReplies_display n r u :
  let u' := exec (UI.managerReplies n r) u in
  (keys u' = keys u ∧ children u' keysData = children u keysData) ∨
  (∃ configured loaded,
     keys u' = mergeKeys configured loaded ∧
     children u' keysData = rows (mergeKeys configured loaded)).
Proof.
  cbv zeta. unfold exec, UI.managerReplies.
  destruct (pending u !! n) as [call|] eqn:Hn; [|by left].
  destruct call as [name privateKey|id passphrase|key|id| |configured],
    r as [[e|]|cs [e|]|ls [e|]]; try (by left);
    unfold takePending, mbind, M_bind; rewrite Hn;
    try (left; split; reflexivity).
  right. exists configured, ls. apply loadedDone_display.
Qed.

(** The invariant of the display: the table shows the key list, and the key
    list is a merged list. *)
Lemma run_display es :
  children (run es) keysData = rows (keys (run es)) ∧
  ∃ configured loaded, keys (run es) = mergeKeys configured loaded.
Proof.
  unfold run. induction es as [|e es IH] using rev_ind.
  - split; [done|]. by exists [], [].
  - rewrite fold_left_app. simpl.
    set (u := fold_left step es UI.New) in *.
    destruct IH as [Hrows Hkeys]. destruct e as [o|i kind|o v|n r|]; simpl.
    + destruct (DoClick_keeps_display o u) as [-> ->]. done.
    + destruct (keys u !! i) as [k|]; [|done].
      destruct (clickButton_keeps_display kind k u) as [-> ->]. done.
    + done.
    + destruct (managerReplies_display n r u)
        as [[-> ->]|(c & l & -> & ->)]; [done|].
      split; [done|]. by exists c, l.
    + done.
Qed.

(** X10: in every state the page can reach, the table shows exactly the rows
    of the key list, and the key list is in ascending order and has no
    entry that is both loaded and encrypted. *)
Theorem reachable_display es :
  children (run es) keysData = rows (keys (run es)) ∧
  StronglySorted ascending (keys (run es)) ∧
  (∀ d, d ∈ keys (run es) → dk_Loaded d = true → dk_Encrypted d = false).
Proof.
  destruct (run_display es) as [Hrows (c & l & Hk)].
  split; [done|]. rewrite Hk. split; [apply mergeKeys_sorted_ascending|].
  intros d [(l0 & _ & ->)|(a & _ & _ & ->)]%elem_of_mergeKeys Hl.
  - apply shownLoaded_fields.
  - discriminate Hl.
Qed.

(** X11: in every state the page can reach, the error text holds at most one
    message. *)
Theorem reachable_one_error es :
  length (children (run es) errorText) ≤ 1.
Proof.
  unfold run. induction es as [|e es IH] using rev_ind; [simpl; lia|].
  rewrite fold_left_app. simpl.
  set (u := fold_left step es UI.New) in *.
  destruct e as [o|i kind|o v|n r|]; simpl.
  - by rewrite DoClick_keeps_error.
  - destruct (keys u !! i) as [k|]; [|done].
    by destruct (clickButton_error kind k u) as [->|[e ->]].
  - done.
  - by destruct (managerReplies_error n r u)
      as [->|[[_ ->]|(p & e & _ & ->)]]; simpl; try lia.
  - done.
Qed.

(** ** Handlers and dialogs *)

Lemma disciplined_frame u u' :
  (∀ x, listeners u' x = listeners u x) → (∀ x, open u' x = open u x) →
  disciplined u → disciplined u'.
Proof.
  intros HL HO (Hadd & Htyped & Hsync). split; [|split].
  - by rewrite HL.
  - intros o h. rewrite HL. apply Htyped.
  - intros D. rewrite !HL, HO. apply Hsync.
Qed.

Lemma disciplined_resolved D u u' :
  resolved D u u' → disciplined u → disciplined u'.
Proof.
  intros [HL HO] (Hadd & Htyped & Hsync). split; [|split].
  - rewrite HL. by destruct D.
  - intros o h. rewrite HL. case_decide; [by intros ?%elem_of_nil|].
    apply Htyped.
  - intros D'. rewrite !HL, HO. specialize (Hsync D').
    destruct D, D'; simpl in *; try done; split; try done;
      split; intros; done.
Qed.

Lemma disciplined_opened D ho hc u u' :
  belongs (okButton D) ho → belongs (cancelButton D) hc →
  opened D ho hc u u' → disciplined u → disciplined u'.
Proof.
  intros Hho Hhc [HL HO] (Hadd & Htyped & Hsync). split; [|split].
  - rewrite HL. by destruct D.
  - intros o h. rewrite HL.
    repeat case_decide; subst;
      rewrite ?elem_of_app, ?list_elem_of_singleton;
      intros; naive_solver.
  - intros D'. rewrite !HL, HO. specialize (Hsync D').
    destruct D, D'; simpl in *; try done;
      rewrite !length_app; simpl; (split; [|lia]);
      (split; [intros _|done]); by intros [_ ?]%app_eq_nil.
Qed.

Lemma belongs_resolves D h :
  belongs (okButton D) h ∨ belongs (cancelButton D) h → resolves h = Some D.
Proof. destruct D, h; simpl; tauto. Qed.

Lemma fire_resolved h D u :
  resolves h = Some D → resolved D u (exec (UI.fire h) u).
Proof.
  destruct h as [|[]|[]|[]|[]|[]|[]]; intros [= <-];
    split; intros x; by destruct x.
Qed.

Lemma resolved_twice D u u' u'' :
  resolved D u u' → resolved D u' u'' → resolved D u u''.
Proof.
  intros [HL HO] [HL' HO']. split; intros x.
  - rewrite HL', HL. by case_decide.
  - rewrite HO', HO. by case_decide.
Qed.

Lemma forEach_resolved hs D u :
  hs ≠ [] → (∀ h, h ∈ hs → resolves h = Some D) →
  resolved D u (exec (forEach hs UI.fire) u).
Proof.
  revert u. induction hs as [|h hs IH]; intros u Hne Hall; [done|].
  rewrite exec_forEach_cons.
  assert (resolved D u (exec (UI.fire h) u)) as Hh
    by (apply fire_resolved, Hall; by left).
  destruct hs as [|h' hs]; [done|].
  eapply resolved_twice; [exact Hh|].
  apply IH; [done|]. intros h0 Hh0. apply Hall. by right.
Qed.

Lemma promptAdd_opened callback u :
  opened AddDialog (addOkClicked callback) (addCancelClicked callback)
    u (exec (UI.promptAdd callback) u).
Proof. split; intros x; by destruct x. Qed.

Lemma promptPassphrase_opened callback u :
  opened PassphraseDialog (passphraseOkClicked callback)
    (passphraseCancelClicked callback)
    u (exec (UI.promptPassphrase callback) u).
Proof. split; intros x; by destruct x. Qed.

Lemma promptRemove_opened name callback u :
  opened RemoveDialog (removeYesClicked callback) (removeNoClicked callback)
    u (exec (UI.promptRemove name callback) u).
Proof. split; intros x; by destruct x. Qed.

Lemma DoClick_disciplined o u :
  disciplined u → disciplined (exec (UI.DoClick o) u).
Proof.
  intros Hu. pose proof Hu as (Hadd & Htyped & _).
  rewrite exec_DoClick.
  destruct (listeners u o) as [|h hs] eqn:Hhs; [done|].
  assert (∀ h', h' ∈ h :: hs → belongs o h') as Hall
    by (intros h' Hh'; apply Htyped; by rewrite Hhs).
  assert (belongs o h) as Hh by (apply Hall; by left).
  destruct o; try (by destruct h);
    try solve
      [ eapply (disciplined_resolved AddDialog); [|done];
        apply forEach_resolved; [done|];
        intros h' Hh'; apply belongs_resolves;
        (left; by apply Hall) || (right; by apply Hall)
      | eapply (disciplined_resolved PassphraseDialog); [|done];
        apply forEach_resolved; [done|];
        intros h' Hh'; apply belongs_resolves;
        (left; by apply Hall) || (right; by apply Hall)
      | eapply (disciplined_resolved RemoveDialog); [|done];
        apply forEach_resolved; [done|];
        intros h' Hh'; apply belongs_resolves;
        (left; by apply Hall) || (right; by apply Hall) ].
  rewrite Hadd in Hhs. injection Hhs as <- <-.
  eapply disciplined_opened; [| |apply (promptAdd_opened addCallback)|done];
    done.
Qed.

Lemma clickButton_disciplined kind k u :
  disciplined u → disciplined (exec (clickButton kind k) u).
Proof.
  intros Hu. unfold clickButton. case_decide; [|done].
  destruct kind; unfold loadClicked, unloadClicked, removeClicked.
  - destruct (dk_Encrypted k); [|done].
    eapply disciplined_opened;
      [| |apply (promptPassphrase_opened (loadCallback (dk_ID k)))|done];
      done.
  - by destruct (displayedKey_LoadedKey k).
  - eapply disciplined_opened;
      [| |apply (promptRemove_opened (dk_Name k) (removeCallback (dk_ID k)))
       |done]; done.
Qed.

Lemma forEach_row_frame ks u :
  listeners
    (exec (forEach ks (λ k, DOM.AppendChild keysData (NewRow (UI.keyRow k)))) u)
  = listeners u ∧
  open
    (exec (forEach ks (λ k, DOM.AppendChild keysData (NewRow (UI.keyRow k)))) u)
  = open u.
Proof.
  revert u. induction ks as [|k ks IH]; intros u; [done|].
  rewrite exec_forEach_cons.
  by destruct (IH (exec (DOM.AppendChild keysData (NewRow (UI.keyRow k))) u))
    as [-> ->].
Qed.

Lemma loadedDone_frame configured loaded u :
  listeners (exec (UI.loadedDone configured loaded None) u) = listeners u ∧
  open (exec (UI.loadedDone configured loaded None) u) = open u.
Proof.
  unfold UI.loadedDone, UI.updateDisplayedKeys.
  rewrite !exec_then, exec_getKeys.
  by destruct (forEach_row_frame
       (keys (exec (DOM.RemoveChildren keysData)
                (exec (setKeys (mergeKeys configured loaded))
                   (exec (UI.setError None) u))))
       (exec (DOM.RemoveChildren keysData)
          (exec (setKeys (mergeKeys configured loaded))
             (exec (UI.setError None) u)))) as [-> ->].
Qed.

Lemma managerReplies_frame n r u :
  listeners (exec (UI.managerReplies n r) u) = listeners u ∧
  open (exec (UI.managerReplies n r) u) = open u.
Proof.
  unfold exec, UI.managerReplies.
  destruct (pending u !! n) as [call|] eqn:Hn; [|done].
  destruct call as [name privateKey|id passphrase|key|id| |configured],
    r as [[e|]|cs [e|]|ls [e|]]; try done;
    unfold takePending, mbind, M_bind; rewrite Hn; try done.
  apply (loadedDone_frame configured ls
           {| value := value u; children := children u; open := open u;
              listeners := listeners u; keys := keys u;
              pending := delete n (pending u); history := history u |}).
Qed.

(** X12: handlers and dialogs stay in step in every state the page can
    reach: the add button carries the one handler that runs [add]; every
    handler sits on the button it was made for; a dialog is open exactly
    while its confirm button carries a handler; and the two buttons of a
    dialog carry equally many handlers. *)
Theorem reachable_disciplined es :
  listeners (run es) addButton = [addClicked] ∧
  (∀ o h, h ∈ listeners (run es) o → belongs o h) ∧
  (∀ D, (open (run es) (dialogElement D) = true
         ↔ listeners (run es) (okButton D) ≠ []) ∧
        length (listeners (run es) (okButton D))
        = length (listeners (run es) (cancelButton D))).
Proof.
  change (disciplined (run es)).
  unfold run. induction es as [|e es IH] using rev_ind.
  - split; [done|]. split.
    + intros o h. destruct o; simpl; try by intros ?%elem_of_nil.
      by intros ->%list_elem_of_singleton.
    + by intros [].
  - rewrite fold_left_app. simpl.
    set (u := fold_left step es UI.New) in *.
    destruct e as [o|i kind|o v|n r|]; simpl.
    + by apply DoClick_disciplined.
    + destruct (keys u !! i) as [k|]; [|done].
      by apply clickButton_disciplined.
    + done.
    + destruct (managerReplies_frame n r u) as [HL HO].
      eapply disciplined_frame; [| |exact IH]; intros x;
        by rewrite ?HL, ?HO.
    + done.
Qed.

(** * More on the action flows *)

(** X13: [remove] asks before it removes.  With no handler left on the two
    buttons of the remove dialog, [remove] shows the name of the key in the
    dialog, opens it, and calls the manager for nothing.  A click on Yes
    then calls [Remove] with the id, once; a click on No calls nothing and
    leaves the key list and the error text alone.  Either click empties the
    name shown, closes the dialog and takes the handlers off both
    buttons. *)
Theorem remove_asks_first id name u :
  listeners u removeYes = [] → listeners u removeNo = [] →
  let asked := exec (UI.remove id name) u in
  (children asked removeName = [NewText name] ∧
   open asked removeDialog = true ∧ pending asked = pending u) ∧
  (let u' := exec (UI.DoClick removeYes) asked in
   pending u' = pending u ++ [mgrRemove id] ∧
   children u' removeName = [] ∧ open u' removeDialog = false ∧
   listeners u' removeYes = [] ∧ listeners u' removeNo = []) ∧
  (let u' := exec (UI.DoClick removeNo) asked in
   pending u' = pending u ∧ keys u' = keys u ∧
   children u' errorText = children u errorText ∧
   children u' removeName = [] ∧ open u' removeDialog = false ∧
   listeners u' removeYes = [] ∧ listeners u' removeNo = []).
Proof.
  intros Hyes Hno asked.
  assert (listeners asked removeYes = [removeYesClicked (removeCallback id)])
    as HY by (subst asked; simpl; unfold insert, fn_insert; simpl;
              by rewrite Hyes).
  assert (listeners asked removeNo = [removeNoClicked (removeCallback id)])
    as HN by (subst asked; simpl; unfold insert, fn_insert; simpl;
              by rewrite Hno).
  split; [done|]. split.
  - intros u'. subst u'. rewrite exec_DoClick, HY. by subst asked.
  - intros u'. subst u'. rewrite exec_DoClick, HN. by subst asked.
Qed.

Lemma remove_asks_first_witness :
  let asked := exec (UI.remove "2" "bob") UI.New in
  pending (exec (UI.DoClick removeYes) asked) = [mgrRemove "2"] ∧
  pending (exec (UI.DoClick removeNo) asked) = [].
Proof.
  destruct (remove_asks_first "2" "bob" UI.New eq_refl eq_refl)
    as (_ & Hyes & Hno).
  split; [apply Hyes|apply Hno].
Defined.

Lemma unload_button_present d :
  dk_ID d ≠ InvalidID → dk_Loaded d = true →
  buttonID UnloadButton (dk_ID d) ∈ keyControls (UI.keyRow d).
Proof.
  intros Hv Hl. unfold UI.keyRow. simpl.
  rewrite decide_False by done. rewrite Hl. by left.
Qed.

(** X14: a click on the Unload button of an entry of the list [mergeKeys]
    returns (a loaded entry with a valid id) reports no error: it runs
    [unload] with a key that has the type and the blob of a loaded key
    [mergeKeys] was given, which calls [Unload] on the manager once and
    leaves the error text alone. *)
Theorem unload_button_unloads configured loaded d u :
  d ∈ mergeKeys configured loaded →
  dk_Loaded d = true → dk_ID d ≠ InvalidID →
  ∃ key l, l ∈ loaded ∧
    lk_Type key = lk_Type l ∧ lk_Blob key = lk_Blob l ∧
    exec (clickButton UnloadButton d) u = exec (UI.unload key) u ∧
    pending (exec (clickButton UnloadButton d) u)
      = pending u ++ [mgrUnload key] ∧
    children (exec (clickButton UnloadButton d) u) errorText
      = children u errorText.
Proof.
  intros [(l & Hl & ->)|(a & _ & _ & ->)]%elem_of_mergeKeys Hloaded Hv;
    [|discriminate Hloaded].
  destruct (LoadedKey_shownLoaded (buildConfiguredMap configured) l)
    as (key & Hkey & Ht & Hb).
  exists key, l. repeat (split; [done|]).
  unfold clickButton.
  rewrite decide_True by (by apply unload_button_present).
  unfold unloadClicked. rewrite Hkey. done.
Qed.

Lemma unload_button_unloads_witness :
  ∃ key l, l ∈ [aliceLoaded] ∧
    lk_Type key = lk_Type l ∧ lk_Blob key = lk_Blob l ∧
    exec (clickButton UnloadButton
            (shownLoaded (buildConfiguredMap [alice]) aliceLoaded)) UI.New
    = exec (UI.unload key) UI.New ∧
    pending (exec (clickButton UnloadButton
                     (shownLoaded (buildConfiguredMap [alice]) aliceLoaded))
               UI.New)
      = pending UI.New ++ [mgrUnload key] ∧
    children (exec (clickButton UnloadButton
                      (shownLoaded (buildConfiguredMap [alice]) aliceLoaded))
                UI.New) errorText
      = children UI.New errorText.
Proof.
  apply (unload_button_unloads [alice] [aliceLoaded]).
  - apply list_elem_of_In. vm_compute. auto.
  - reflexivity.
  - discriminate.
Defined.

(** X15: the steps of [updateKeys].  [updateKeys] itself only asks the
    manager for the configured keys.  When that call fails, the error text
    reads [failed to get configured keys: ...], the loaded keys are not
    asked for, and the key list and the table stay; when it succeeds, the
    loaded keys are asked for and nothing else changes.  When the second
    call fails, the error text reads [failed to get loaded keys: ...] and
    the key list and the table stay; when it succeeds, the error text is
    cleared and the key list and the table show what [mergeKeys] returns. *)
Theorem refresh_outcomes u :
  (let u' := exec UI.updateKeys u in
   pending u' = pending u ++ [mgrConfigured] ∧ keys u' = keys u ∧
   children u' = children u) ∧
  (∀ configured e,
     let u' := exec (UI.configuredDone configured (Some e)) u in
     children u' errorText
       = [NewText ("failed to get configured keys: " +:+ e)] ∧
     keys u' = keys u ∧ children u' keysData = children u keysData ∧
     pending u' = pending u) ∧
  (∀ configured,
     let u' := exec (UI.configuredDone configured None) u in
     pending u' = pending u ++ [mgrLoaded configured] ∧ keys u' = keys u ∧
     children u' = children u) ∧
  (∀ configured loaded e,
     let u' := exec (UI.loadedDone configured loaded (Some e)) u in
     children u' errorText = [NewText ("failed to get loaded keys: " +:+ e)] ∧
     keys u' = keys u ∧ children u' keysData = children u keysData ∧
     pending u' = pending u) ∧
  (∀ configured loaded,
     let u' := exec (UI.loadedDone configured loaded None) u in
     children u' errorText = [] ∧
     keys u' = mergeKeys configured loaded ∧
     children u' keysData = rows (mergeKeys configured loaded)).
Proof.
  repeat split.
  - apply loadedDone_clears_error.
  - apply loadedDone_display.
  - apply loadedDone_display.
Qed.

(** * Buttons and names *)

Lemma buttonID_eq kind1 id1 kind2 id2 :
  buttonID kind1 id1 = buttonID kind2 id2 → kind1 = kind2 ∧ id1 = id2.
Proof.
  destruct kind1, kind2; intros H; cbv [buttonID String.append] in H;
    by simplify_eq.
Qed.

(** X16: [buttonID] is one-to-one on the three kinds of button: a button id
    determines both the kind of the button and the id of the key. *)
Theorem buttonID_inj kind1 id1 kind2 id2 :
  buttonID kind1 id1 = buttonID kind2 id2 → kind1 = kind2 ∧ id1 = id2.
Proof. apply buttonID_eq. Qed.

Lemma buttonID_inj_witness :
  LoadButton = LoadButton ∧ ("1" : ID) = "1".
Proof. apply (buttonID_inj LoadButton "1" LoadButton "1"). reflexivity. Defined.

Lemma elem_of_keyControls b k :
  b ∈ keyControls (UI.keyRow k) →
  dk_ID k ≠ InvalidID ∧ ∃ kind, b = buttonID kind (dk_ID k).
Proof.
  unfold UI.keyRow. simpl. case_decide; [by intros ?%elem_of_nil|].
  intros [->|[->|[]%elem_of_nil]%elem_of_cons]%elem_of_cons.
  - split; [done|]. destruct (dk_Loaded k); eauto.
  - split; [done|]. eauto.
Qed.

Lemma keyControls_NoDup k : NoDup (keyControls (UI.keyRow k)).
Proof.
  unfold UI.keyRow. simpl. case_decide; [constructor|].
  apply NoDup_cons. split; [|apply NoDup_singleton].
  intros Hb%list_elem_of_singleton.
  destruct (dk_Loaded k); by apply buttonID_eq in Hb as [? _].
Qed.

Lemma buttonIDs_NoDup ks :
  NoDup (filter (λ id, id ≠ InvalidID) (dk_ID <$> ks)) → NoDup (buttonIDs ks).
Proof.
  unfold buttonIDs. induction ks as [|k ks IH]; intros Hnd; [constructor|].
  rewrite fmap_cons, filter_cons in Hnd. simpl.
  apply NoDup_app. split; [apply keyControls_NoDup|]. split.
  - intros b [Hv [kind ->]]%elem_of_keyControls
      (k' & [_ [kind' [_ Hid]%buttonID_eq]]%elem_of_keyControls & Hk')
      %list_elem_of_bind.
    rewrite decide_True in Hnd by done.
    apply NoDup_cons in Hnd as [Hnotin _]. apply Hnotin.
    apply list_elem_of_filter. split; [done|].
    rewrite Hid. by apply list_elem_of_fmap_2.
  - apply IH. destruct (decide (dk_ID k ≠ InvalidID)); [|done].
    by apply NoDup_cons in Hnd as [_ ?].
Qed.

(** X17: when no id is configured twice and no valid id is carried by two
    loaded keys, no two buttons in the rows of the list [mergeKeys] returns
    have the same id. *)
Theorem table_buttons_distinct configured loaded :
  NoDup (ck_ID <$> configured) →
  NoDup (filter (λ id, id ≠ InvalidID) (lk_ID <$> loaded)) →
  NoDup (buttonIDs (mergeKeys configured loaded)).
Proof. intros Hc Hl. by apply buttonIDs_NoDup, valid_ids_NoDup. Qed.

Lemma table_buttons_distinct_witness :
  NoDup (buttonIDs (mergeKeys [alice; bob] [stranger; aliceLoaded])).
Proof.
  apply table_buttons_distinct.
  - apply NoDup_ListNoDup. vm_compute.
    repeat constructor; simpl; intuition discriminate.
  - apply NoDup_ListNoDup. vm_compute.
    repeat constructor; simpl; intuition discriminate.
Defined.

(** X18: [lookupKey] returns the first entry of the list with the given
    name: the entry it returns has that name and no entry before it has;
    it returns nothing exactly when no entry has the name. *)
Theorem lookupKey_first disp name :
  match lookupKey disp name with
  | None => name ∉ dk_Name <$> disp
  | Some k =>
      dk_Name k = name ∧
      ∃ i, disp !! i = Some k ∧
           ∀ j k', j < i → disp !! j = Some k' → dk_Name k' ≠ name
  end.
Proof.
  induction disp as [|k0 disp IH]; simpl; [apply not_elem_of_nil|].
  case_decide as Hn.
  - split; [done|]. exists 0. split; [done|]. intros j k' Hj. lia.
  - destruct (lookupKey disp name) as [k|].
    + destruct IH as [Hk (i & Hi & Hfirst)]. split; [done|].
      exists (S i). split; [done|].
      intros [|j] k' Hj Hk'; simpl in Hk'; [congruence|].
      apply (Hfirst j); [lia|done].
    + rewrite not_elem_of_cons. done.
Qed.

Lemma findKey_lookupKey disp name :
  findKey disp name = from_option dk_ID InvalidID (lookupKey disp name).
Proof.
  induction disp as [|k disp IH]; simpl; [done|]. by case_decide.
Qed.

Lemma lookupKey_elem disp name k :
  lookupKey disp name = Some k → k ∈ disp ∧ dk_Name k = name.
Proof.
  induction disp as [|k0 disp IH]; simpl; [done|].
  case_decide.
  - intros [= ->]. split; [by left|done].
  - intros [? ?]%IH. split; [by right|done].
Qed.

Lemma lookupKey_None disp name :
  lookupKey disp name = None → name ∉ dk_Name <$> disp.
Proof.
  induction disp as [|k0 disp IH]; simpl; [intros _; apply not_elem_of_nil|].
  case_decide; [done|]. intros ?%IH. rewrite not_elem_of_cons. done.
Qed.

(** X19: a configured key can be found by its name.  When no id is
    configured twice, and the key has a name that is not empty and that no
    other configured key has, [findKey] on the list [mergeKeys] returns
    gives the id of the key, and [lookupKey] gives an entry with that id
    that is loaded exactly when some loaded key carries the id. *)
Theorem findKey_configured configured loaded c :
  NoDup (ck_ID <$> configured) → c ∈ configured → ck_Name c ≠ "" →
  (∀ c', c' ∈ configured → ck_Name c' = ck_Name c → c' = c) →
  findKey (mergeKeys configured loaded) (ck_Name c) = ck_ID c ∧
  ∃ d, lookupKey (mergeKeys configured loaded) (ck_Name c) = Some d ∧
       dk_ID d = ck_ID c ∧ (dk_Loaded d = true ↔ matched loaded c).
Proof.
  intros Hnd Hc Hname Huniq.
  destruct (lookupKey (mergeKeys configured loaded) (ck_Name c))
    as [d|] eqn:E.
  - assert (dk_ID d = ck_ID c ∧ (dk_Loaded d = true ↔ matched loaded c))
      as [Hid Hl].
    { apply lookupKey_elem in E as [Hd Hn].
      apply elem_of_mergeKeys in Hd as [(l & Hl & ->)|(a & Ha & Hm & ->)].
      - revert Hn. unfold shownLoaded, unconfigured.
        destruct (buildConfiguredMap configured !! lk_ID l) as [ak|] eqn:Em;
          [destruct (decide (lk_ID l = InvalidID))|]; simpl;
          intros Hn; try congruence.
        apply configuredMap_elem in Em as [Hak Hakid].
        assert (ak = c) as -> by (by apply Huniq).
        split; [done|]. split; [|done]. intros _.
        apply Exists_exists. exists l. by repeat split.
      - simpl in *. assert (a = c) as -> by (by apply Huniq).
        split; [done|]. split; [done|]. intros Hm'. by destruct Hm. }
    split; [|eauto]. by rewrite findKey_lookupKey, E.
  - exfalso. apply lookupKey_None in E. apply E.
    destruct (configured_key_shown configured loaded c Hnd Hc)
      as (d & Hd & _ & Hn & _).
    rewrite <- Hn. by apply list_elem_of_fmap_2.
Qed.

Lemma findKey_configured_witness :
  findKey (mergeKeys [alice; bob] [stranger; aliceLoaded]) "bob" = "2".
Proof.
  apply (findKey_configured [alice; bob] [stranger; aliceLoaded] bob).
  - apply NoDup_ListNoDup. vm_compute.
    repeat constructor; simpl; intuition discriminate.
  - apply list_elem_of_In. simpl. auto.
  - discriminate.
  - intros c' Hc'. apply list_elem_of_In in Hc'. simpl in Hc'.
    destruct Hc' as [<-|[<-|[]]]; [discriminate|done].
Defined.

(** * A whole flow *)

Lemma lookup_last {A : Type} (l : list A) (x : A) :
  (l ++ [x]) !! length l = Some x.
Proof. by rewrite list_lookup_middle. Qed.

Lemma delete_last {A : Type} (l : list A) (x : A) :
  delete (length l) (l ++ [x]) = l.
Proof.
  induction l as [|y l IH]; [done|]. simpl. by rewrite IH.
Qed.

(** The manager answers the call it was handed last. *)
Lemma answer_last p call r u :
  pending u = p ++ [call] →
  exec (UI.managerReplies (length p) r) u
  = match call, r with
    | mgrAdd _ _, replyError err => exec (UI.addDone err) (withPending p u)
    | mgrLoad _ _, replyError err => exec (UI.loadDone err) (withPending p u)
    | mgrUnload _, replyError err => exec (UI.unloadDone err) (withPending p u)
    | mgrRemove _, replyError err => exec (UI.removeDone err) (withPending p u)
    | mgrConfigured, replyConfigured configured err =>
        exec (UI.configuredDone configured err) (withPending p u)
    | mgrLoaded configured, replyLoaded loaded err =>
        exec (UI.loadedDone configured loaded err) (withPending p u)
    | _, _ => u
    end.
Proof.
  intros Hp. unfold exec, UI.managerReplies.
  rewrite Hp, lookup_last.
  destruct call, r; try done;
    unfold takePending, mbind, M_bind; rewrite Hp, lookup_last, delete_last;
    done.
Qed.

Lemma loadedDone_rest configured loaded u :
  let u' := exec (UI.loadedDone configured loaded None) u in
  value u' = value u ∧ pending u' = pending u.
Proof.
  cbv zeta. unfold UI.loadedDone, UI.updateDisplayedKeys.
  rewrite !exec_then, exec_getKeys.
  generalize (keys (exec (DOM.RemoveChildren keysData)
                      (exec (setKeys (mergeKeys configured loaded))
                         (exec (UI.setError None) u)))).
  intros ks.
  assert (∀ v, value (exec (forEach ks (λ k,
                 DOM.AppendChild keysData (NewRow (UI.keyRow k)))) v) = value v ∧
               pending (exec (forEach ks (λ k,
                 DOM.AppendChild keysData (NewRow (UI.keyRow k)))) v)
               = pending v) as H.
  { induction ks as [|k ks IH]; intros v; [done|].
    rewrite exec_forEach_cons.
    by destruct (IH (exec (DOM.AppendChild keysData (NewRow (UI.keyRow k))) v))
      as [-> ->]. }
  by destruct (H (exec (DOM.RemoveChildren keysData)
                    (exec (setKeys (mergeKeys configured loaded))
                       (exec (UI.setError None) u)))) as [-> ->].
Qed.

(** X20: a whole add, from a state where only the add button carries a
    handler among the buttons of the add flow.  The user clicks the add
    button, types a name and a key, and confirms.  When the manager accepts
    and then reports the configured and the loaded keys, the key list and
    the table show what [mergeKeys] returns for them and the error text is
    empty.  When the manager refuses, the key list and the table stay and
    the error text reads [failed to add key: ...].  Either way no call of
    the flow is left outstanding and both inputs of the dialog are empty. *)
Theorem add_end_to_end u name privateKey configured loaded :
  listeners u addButton = [addClicked] →
  listeners u addOk = [] → listeners u addCancel = [] →
  (let u' := fold_left step
               (addEvents (length (pending u)) name privateKey None
                  configured loaded) u in
   keys u' = mergeKeys configured loaded ∧
   children u' keysData = rows (mergeKeys configured loaded) ∧
   children u' errorText = [] ∧ pending u' = pending u ∧
   value u' addName = "" ∧ value u' addKey = "") ∧
  (∀ e,
     let u' := fold_left step
                 (take 5 (addEvents (length (pending u)) name privateKey
                            (Some e) configured loaded)) u in
     keys u' = keys u ∧ children u' keysData = children u keysData ∧
     children u' errorText = [NewText ("failed to add key: " +:+ e)] ∧
     pending u' = pending u ∧
     value u' addName = "" ∧ value u' addKey = "").
Proof.
  intros Hadd Hok Hcancel.
  set (u3 := typeInto addKey privateKey
               (typeInto addName name (exec (UI.DoClick addButton) u))).
  assert (listeners u3 addOk = [addOkClicked addCallback]) as Hl.
  { subst u3. rewrite exec_DoClick, Hadd. simpl.
    unfold insert, fn_insert. simpl. by rewrite Hok. }
  set (u4 := exec (UI.DoClick addOk) u3).
  assert (pending u4 = pending u ++ [mgrAdd name privateKey] ∧
          keys u4 = keys u ∧ children u4 = children u ∧
          value u4 addName = "" ∧ value u4 addKey = "") as (Hp4 & Hk4 & Hc4 & Hn4 & Hv4).
  { subst u4. rewrite exec_DoClick, Hl. subst u3.
    rewrite exec_DoClick, Hadd. done. }
  split.
  - intros u'. subst u'. unfold addEvents. simpl fold_left. fold u3. fold u4.
    rewrite (answer_last _ _ _ _ Hp4).
    set (u5 := exec (UI.addDone None) (withPending (pending u) u4)).
    assert (pending u5 = pending u ++ [mgrConfigured]) as Hp5 by done.
    rewrite (answer_last _ _ _ _ Hp5).
    set (u6 := exec (UI.configuredDone configured None)
                 (withPending (pending u) u5)).
    assert (pending u6 = pending u ++ [mgrLoaded configured]) as Hp6 by done.
    rewrite (answer_last _ _ _ _ Hp6).
    destruct (loadedDone_display configured loaded (withPending (pending u) u6))
      as [-> ->].
    destruct (loadedDone_rest configured loaded (withPending (pending u) u6))
      as [-> ->].
    rewrite loadedDone_clears_error. done.
  - intros e u'. subst u'. unfold addEvents. simpl fold_left. fold u3. fold u4.
    rewrite (answer_last _ _ _ _ Hp4). simpl.
    by rewrite Hk4, Hc4.
Qed.

Lemma add_end_to_end_witness :
  let u' := fold_left step (addEvents 0 "bob" "private-key" None [bob] [])
              UI.New in
  keys u' = mergeKeys [bob] [] ∧
  children u' keysData = rows (mergeKeys [bob] []) ∧
  children u' errorText = [] ∧ pending u' = [] ∧
  value u' addName = "" ∧ value u' addKey = "".
Proof.
  destruct (add_end_to_end UI.New "bob" "private-key" [bob] []
              eq_refl eq_refl eq_refl) as [H _].
  exact H.
Defined.

(** * Callback arguments and storage data *)

Section fold_insert.
Context {V : Type}.

Lemma fold_insert_seq (f : nat → V) (a n : nat) (t : list V) (j : nat) :
  fold_left (λ t i, <[i := f i]> t) (seq a n) t !! j
  = if decide (a ≤ j < a + n ∧ j < length t) then Some (f j) else t !! j.
Proof.
  revert a t. induction n as [|n IH]; intros a t; simpl.
  - case_decide; [lia|done].
  - rewrite IH, length_insert.
    destruct (decide (j = a)) as [->|Hne].
    + destruct (decide (a < length t)).
      * rewrite list_lookup_insert_eq by done.
        repeat case_decide; try done; lia.
      * rewrite list_insert_ge by lia.
        repeat case_decide; try done; lia.
    + rewrite list_lookup_insert_ne by done.
      repeat case_decide; try done; lia.
Qed.

Lemma fold_insert_length (f : nat → V) (l : list nat) (t : list V) :
  length (fold_left (λ t i, <[i := f i]> t) l t) = length t.
Proof.
  revert t. induction l as [|i l IH]; intros t; simpl; [done|].
  by rewrite IH, length_insert.
Qed.

Lemma fold_assign_args (undefined : V) (args : list V) (l : list nat)
    (t : list V) :
  (∀ i, i ∈ l → i < length args) →
  fold_left (λ target i,
               match args !! i with
               | Some arg => <[i := arg]> target
               | None => target
               end) l t
  = fold_left (λ t i, <[i := default undefined (args !! i)]> t) l t.
Proof.
  revert t. induction l as [|i l IH]; intros t Hl; simpl; [done|].
  destruct (lookup_lt_is_Some_2 args i) as [arg ->]; [apply Hl; by left|].
  simpl. apply IH. intros j Hj. apply Hl. by right.
Qed.
End fold_insert.


Lemma ExpandArgs_eq {V : Type} (undefined : V) (args target : list V) :
  args.ExpandArgs undefined args target
  = (λ i, default undefined (args !! i)) <$> seq 0 (length target).
Proof.
  unfold args.ExpandArgs.
  rewrite (fold_assign_args undefined)
    by (intros i [_ Hi]%elem_of_seq; lia).
  apply list_eq. intros j.
  rewrite fold_insert_seq, fold_insert_length, fold_insert_seq.
  rewrite list_lookup_fmap.
  destruct (decide (j < length target)) as [Hj|Hj].
  - rewrite lookup_seq_lt by done. simpl.
    destruct (decide (j < length args)) as [Ha|Ha].
    + rewrite decide_False by lia. by rewrite decide_True by lia.
    + rewrite decide_True by lia. by rewrite (lookup_ge_None_2 args j) by lia.
  - rewrite lookup_seq_ge by lia. simpl.
    rewrite decide_False by lia. rewrite decide_False by lia.
    apply lookup_ge_None_2. lia.
Qed.

Lemma SingleArg_head {V : Type} (undefined : V) (args : list V) :
  args.SingleArg undefined args = default undefined (head args).
Proof.
  unfold args.SingleArg.
  rewrite (ExpandArgs_eq undefined args [undefined]). simpl.
  by destruct args.
Qed.

(** X21: [ExpandArgs] gives every target a value: the argument at its
    position, or [undefined] when there is none; what a target held before
    is never kept, and arguments beyond the targets are dropped.
    [SingleArg] returns the first argument, or [undefined]. *)
Theorem ExpandArgs_assigns_all {V : Type} (undefined : V)
    (args target : list V) :
  args.ExpandArgs undefined args target
  = (λ i, default undefined (args !! i)) <$> seq 0 (length target) ∧
  length (args.ExpandArgs undefined args target) = length target ∧
  args.SingleArg undefined args = default undefined (head args).
Proof.
  split; [apply ExpandArgs_eq|]. split; [|apply SingleArg_head].
  by rewrite ExpandArgs_eq, length_fmap, length_seq.
Qed.

(** ** Storage data *)


(** Inserting the entries of a map, in any order, into a map that agrees
    with it on what it holds already, gives the map. *)
Lemma fold_insert_entries {V : Type} (data : gmap string V)
    (entries : list (string * V)) (m : gmap string V) :
  (∀ k v, (k, v) ∈ entries → data !! k = Some v) →
  (∀ k v, data !! k = Some v → (k, v) ∈ entries ∨ m !! k = Some v) →
  (∀ k v, m !! k = Some v → data !! k = Some v) →
  fold_left (λ m kv, <[kv.1 := kv.2]> m) entries m = data.
Proof.
  revert m. induction entries as [|[k v] entries IH]; intros m Hin Hall Hm.
  - simpl. apply map_eq. intros k.
    destruct (data !! k) as [v|] eqn:E.
    + destruct (Hall k v E) as [[]%elem_of_nil|]; done.
    + destruct (m !! k) as [v|] eqn:E'; [|done].
      apply Hm in E'. congruence.
  - simpl. apply IH.
    + intros k' v' Hkv. apply Hin. by right.
    + intros k' v' E. destruct (decide (k' = k)) as [->|Hne].
      * right. rewrite lookup_insert_eq.
        rewrite (Hin k v) in E by (by left). done.
      * rewrite lookup_insert_ne by done.
        destruct (Hall k' v' E) as [[[= -> ->]|?]%elem_of_cons|?]; auto.
        done.
    + intros k' v'. destruct (decide (k' = k)) as [->|Hne].
      * rewrite lookup_insert_eq. intros [= <-]. apply Hin. by left.
      * rewrite lookup_insert_ne by done. apply Hm.
Qed.


Lemma valueToData_Object data :
  chrome.valueToData (js.Object data) = inl data.
Proof.
  unfold chrome.valueToData. simpl. f_equal.
  assert (∀ (ks : list (string * js.Value)) (m : gmap string js.Value),
            ks ⊆ map_to_list data →
            fold_left (λ d k, <[k := default js.Undefined (data !! k)]> d)
              ks.*1 m
            = fold_left (λ m kv, <[kv.1 := kv.2]> m) ks m) as Hfold.
  { induction ks as [|[k v] ks IH]; intros m Hks; [done|]. simpl.
    assert (data !! k = Some v) as ->
      by (apply elem_of_map_to_list, Hks; by left).
    simpl. apply IH. intros kv Hkv. apply Hks. by right. }
  rewrite Hfold by done.
  apply fold_insert_entries.
  - intros k v. apply elem_of_map_to_list.
  - intros k v Hkv. left. by apply elem_of_map_to_list.
  - intros k v. by rewrite lookup_empty.
Qed.



(** X23: the function [Get] hands to Chrome calls the callback with data
    or with an error, never both and never neither.  It passes data only
    when Chrome reports no error and the first argument is an object, and
    then the data are the properties of that object.  A Chrome error is
    passed on as [failed to get data: ...], whatever the arguments; with no
    Chrome error, a first argument that is missing or not an object gives
    [failed to parse data: failed to read data: got unexpected type ...]
    with the name of its type. *)
Theorem getCallback_outcomes lastError args :
  match chrome.getCallback lastError args with
  | (Some data, None) =>
      lastError = None ∧ head args = Some (js.Object data)
  | (None, Some err) =>
      match lastError with
      | Some e => err = "failed to get data: " +:+ e
      | None =>
          js.Type_of (default js.Undefined (head args)) ≠ js.TypeObject ∧
          err = "failed to parse data: failed to read data: got unexpected type "
                +:+ js.Type_String
                      (js.Type_of (default js.Undefined (head args)))
      end
  | _ => False
  end.
Proof.
  unfold chrome.getCallback. destruct lastError as [e|]; [done|].
  rewrite SingleArg_head.
  destruct (head args) as [v|]; simpl; [|by split].
  destruct v; try (by split).
  by rewrite valueToData_Object.
Qed.
